(** * Four-bar workspace envelope: the animation front end (static/plot.js)

    A shallow embedding of [runAnimation]: the bounds computation, the
    frame-building loop, the initial [Plotly.newPlot] call and the
    self-restarting [animateLoop], followed by the properties the
    specification states about them.

    Numbers.  A JavaScript number is an IEEE-754 binary64 value.  The
    code is written once, over an interface [JsNumber] that lists the
    operations plot.js uses, and run at two instances:
    - [xnum]: exact rationals extended with the two infinities and NaN.
      Rounding is idealised away; the special values behave as in IEEE
      arithmetic.  The order-theoretic facts are proved here.
    - [float]: the kernel's binary64 numbers, used to evaluate the code
      on concrete inputs bit for bit.

    Limits.  What is proved at [xnum] is proved of exact arithmetic.
    Rounding and overflow of binary64 (a sum [xmin + xmax] beyond the
    largest double, a margin lost between two adjacent doubles) are not
    covered by those theorems. *)

From Stdlib Require Import List String Bool PeanoNat Lia.
From Stdlib Require Import QArith Qminmax Lqa.
From Stdlib Require Import Floats.

#[local] Set Warnings "-inexact-float".
Import ListNotations.

Set Implicit Arguments.

(* ------------------------------------------------------------------ *)
(** ** Exceptions *)

(** The only exception the modelled code can raise by itself: reading a
    property of [undefined] ([data.B[i][0]] past the end of [data.B],
    [frames[0].data] on an empty array). *)
Inductive error : Type :=
| TypeError.

Inductive result (T : Type) : Type :=
| Ok (v : T)
| Throw (e : error).

Arguments Ok {T} v.
Arguments Throw {T} e.

Definition bind {T U : Type} (r : result T) (k : T -> result U) : result U :=
  match r with
  | Ok v => k v
  | Throw e => Throw e
  end.

Notation "x <- r ;; k" := (bind r (fun x => k))
  (at level 61, r at next level, right associativity).

(** [arr[i].prop]: [arr[i]] is [undefined] past the end, and reading a
    property of [undefined] throws. *)
Definition at_index {T : Type} (arr : list T) (i : nat) : result T :=
  match nth_error arr i with
  | Some v => Ok v
  | None => Throw TypeError
  end.

(* ------------------------------------------------------------------ *)
(** ** Numbers *)

(** What plot.js asks of its numbers: the literals [0.2], [0.5], [0.6],
    [+], [-], [*], and the two-argument steps of [Math.min]/[Math.max]
    together with their values on no argument at all. *)
Class JsNumber (num : Type) : Type := {
  lit_0_2 : num;
  lit_0_5 : num;
  lit_0_6 : num;
  pos_infinity : num;
  neg_infinity : num;
  nadd : num -> num -> num;
  nsub : num -> num -> num;
  nmul : num -> num -> num;
  (** [min_step lowest v]: one iteration of [Math.min] *)
  min_step : num -> num -> num;
  (** [max_step highest v]: one iteration of [Math.max] *)
  max_step : num -> num -> num
}.

(** [Math.min(...xs)]: start from [+Infinity], fold over the arguments. *)
Definition Math_min {num : Type} {JN : JsNumber num} (xs : list num) : num :=
  fold_left min_step xs pos_infinity.

(** [Math.max(...xs)]: start from [-Infinity]. *)
Definition Math_max {num : Type} {JN : JsNumber num} (xs : list num) : num :=
  fold_left max_step xs neg_infinity.

(** Rationals with infinities and NaN. *)
Inductive xnum : Type :=
| Fin (q : Q)
| PInf
| NInf
| NaN.

Definition xadd (a b : xnum) : xnum :=
  match a, b with
  | NaN, _ | _, NaN => NaN
  | Fin p, Fin q => Fin (p + q)
  | PInf, NInf | NInf, PInf => NaN
  | PInf, _ | _, PInf => PInf
  | NInf, _ | _, NInf => NInf
  end.

Definition xsub (a b : xnum) : xnum :=
  match a, b with
  | NaN, _ | _, NaN => NaN
  | Fin p, Fin q => Fin (p - q)
  | PInf, PInf | NInf, NInf => NaN
  | PInf, _ | _, NInf => PInf
  | NInf, _ | _, PInf => NInf
  end.

(** An infinity times a finite factor: the sign decides, zero gives NaN. *)
Definition scale_inf (positive : bool) (q : Q) : xnum :=
  match Qcompare q 0 with
  | Gt => if positive then PInf else NInf
  | Lt => if positive then NInf else PInf
  | Eq => NaN
  end.

Definition xmul (a b : xnum) : xnum :=
  match a, b with
  | NaN, _ | _, NaN => NaN
  | Fin p, Fin q => Fin (p * q)
  | PInf, Fin q | Fin q, PInf => scale_inf true q
  | NInf, Fin q | Fin q, NInf => scale_inf false q
  | PInf, PInf | NInf, NInf => PInf
  | PInf, NInf | NInf, PInf => NInf
  end.

(** [a < b] as JavaScript decides it ([false] when NaN is involved). *)
Definition xltb (a b : xnum) : bool :=
  match a, b with
  | NaN, _ | _, NaN => false
  | Fin p, Fin q => negb (Qle_bool q p)
  | NInf, NInf | PInf, PInf => false
  | NInf, _ | _, PInf => true
  | PInf, _ | _, NInf => false
  end.

Definition xmin_step (lowest v : xnum) : xnum :=
  match lowest, v with
  | NaN, _ | _, NaN => NaN
  | _, _ => if xltb v lowest then v else lowest
  end.

Definition xmax_step (highest v : xnum) : xnum :=
  match highest, v with
  | NaN, _ | _, NaN => NaN
  | _, _ => if xltb highest v then v else highest
  end.

#[export] Instance xnum_JsNumber : JsNumber xnum := {
  lit_0_2 := Fin 0.2;
  lit_0_5 := Fin 0.5;
  lit_0_6 := Fin 0.6;
  pos_infinity := PInf;
  neg_infinity := NInf;
  nadd := xadd;
  nsub := xsub;
  nmul := xmul;
  min_step := xmin_step;
  max_step := xmax_step
}.

(** Binary64.  [Math.min] and [Math.max] return NaN as soon as an
    argument is NaN and order [-0] below [+0]. *)
Definition is_neg_zero (f : float) : bool :=
  (PrimFloat.eqb f 0%float && PrimFloat.ltb (1 / f)%float 0%float)%bool.

Definition fmin_step (lowest v : float) : float :=
  if (PrimFloat.is_nan lowest || PrimFloat.is_nan v)%bool then PrimFloat.nan
  else if PrimFloat.ltb v lowest then v
  else if (PrimFloat.eqb v lowest && is_neg_zero v)%bool then v
  else lowest.

Definition fmax_step (highest v : float) : float :=
  if (PrimFloat.is_nan highest || PrimFloat.is_nan v)%bool then PrimFloat.nan
  else if PrimFloat.ltb highest v then v
  else if (PrimFloat.eqb v highest && is_neg_zero highest)%bool then v
  else highest.

#[export] Instance float_JsNumber : JsNumber float := {
  lit_0_2 := 0.2%float;
  lit_0_5 := 0.5%float;
  lit_0_6 := 0.6%float;
  pos_infinity := PrimFloat.infinity;
  neg_infinity := PrimFloat.neg_infinity;
  nadd := PrimFloat.add;
  nsub := PrimFloat.sub;
  nmul := PrimFloat.mul;
  min_step := fmin_step;
  max_step := fmax_step
}.

(* ------------------------------------------------------------------ *)
(** ** Data *)

(** A position [p] is the two-element array [[x, y]]: [p[0]] is [fst],
    [p[1]] is [snd]. *)
Definition point (num : Type) : Type := (num * num)%type.

(** The solver's response [data]: four arrays of positions.  Nothing in
    the type makes them equally long; the code indexes all four with the
    indices of [data.A]. *)
Module Response.
Record t (num : Type) : Type := mk {
  A : list (point num);
  B : list (point num);
  C : list (point num);
  D : list (point num)
}.
End Response.

(** A pose: the four joint positions of one time step.  A motion series
    is a list of poses. *)
Module Pose.
Record t (num : Type) : Type := mk {
  A : point num;
  B : point num;
  C : point num;
  D : point num
}.

Definition joints {num : Type} (p : t num) : list (point num) :=
  [A p; B p; C p; D p].

Definition map {num num' : Type} (f : num -> num') (p : t num) : t num' :=
  let g := fun q : point num => (f (fst q), f (snd q)) in
  mk (g (A p)) (g (B p)) (g (C p)) (g (D p)).
End Pose.

(** The response that carries a motion series: array [A] holds the
    A-positions of poses 0, 1, ... in order, and likewise for B, C, D. *)
Definition of_series {num : Type} (ms : list (Pose.t num)) : Response.t num :=
  Response.mk (map (@Pose.A num) ms) (map (@Pose.B num) ms)
              (map (@Pose.C num) ms) (map (@Pose.D num) ms).

(** Plotly scene descriptions, field by field as plot.js writes them;
    a field an object literal leaves out is [None]. *)
Module Line.
Record t : Type := mk { width : nat; dash : option string }.
End Line.

Module Marker.
Record t : Type := mk { size : nat }.
End Marker.

Module Trace.
Record t (num : Type) : Type := mk {
  x : list num;
  y : list num;
  mode : string;
  line : option Line.t;
  marker : option Marker.t;
  text : option (list string);
  textposition : option string;
  showlegend : option bool;
  name : option string
}.

(** The vertices of the polyline a trace draws. *)
Definition points {num : Type} (tr : t num) : list (point num) :=
  combine (x tr) (y tr).
End Trace.

Module Frame.
Record t (num : Type) : Type := mk { data : list (Trace.t num) }.
End Frame.

Module Axis.
Record t (num : Type) : Type := mk {
  range : num * num;
  zeroline : bool;
  zerolinewidth : nat;
  zerolinecolor : string;
  scaleanchor : option string
}.
End Axis.

Module Margin.
Record t : Type := mk { l : nat; r : nat; t_ : nat; b : nat }.
End Margin.

Module Layout.
Record t (num : Type) : Type := mk {
  xaxis : Axis.t num;
  yaxis : Axis.t num;
  showlegend : bool;
  margin : Margin.t
}.
End Layout.

Module AnimFrame.
Record t : Type := mk { duration : nat; redraw : bool }.
End AnimFrame.

Module Transition.
Record t : Type := mk { duration : nat }.
End Transition.

Module AnimOpts.
Record t : Type := mk {
  frame : AnimFrame.t;
  transition : Transition.t;
  mode : string
}.
End AnimOpts.

(** Calls into Plotly. *)
Inductive command (num : Type) : Type :=
| NewPlot (div : string) (data : list (Trace.t num)) (layout : Layout.t num)
| Animate (div : string) (frames : list (Frame.t num)) (opts : AnimOpts.t).

(** How the promise returned by [Plotly.animate] settles. *)
Inductive settlement : Type :=
| Resolved
| Rejected.

(** What an observer of one [runAnimation] run sees. *)
Inductive event (num : Type) : Type :=
| Call (c : command num)
| Settle (s : settlement)
| Uncaught (e : error).

Arguments Settle {num} s.
Arguments Uncaught {num} e.

(* ------------------------------------------------------------------ *)
(** ** runAnimation, from the solver's response on

    Lines 3-16 of plot.js read the four link lengths from the page and
    post them to [/solve]; the model starts where [data] is available. *)

Section Code.

Context {num : Type} {JN : JsNumber num}.

(** [arr.forEach(p => { allX.push(p[0]); allY.push(p[1]); })] on the two
    pools [(allX, allY)]. *)
Definition forEach_push (arr : list (point num)) (pools : list num * list num)
  : list num * list num :=
  fold_left (fun acc p => (fst acc ++ [fst p], snd acc ++ [snd p])) arr pools.

(** The constants of the block "Compute bounds for centering". *)
Record bounds : Type := mkBounds {
  xmin : num;
  xmax : num;
  ymin : num;
  ymax : num;
  padding : num;
  xRange : num * num;
  yRange : num * num
}.

(** [allX] and [allY] after the four [forEach] calls of lines 26-29. *)
Definition pools (data : Response.t num) : list num * list num :=
  forEach_push (Response.D data)
    (forEach_push (Response.C data)
      (forEach_push (Response.B data)
        (forEach_push (Response.A data) ([], [])))).

Definition computeBounds (data : Response.t num) : bounds :=
  let allX := fst (pools data) in
  let allY := snd (pools data) in
  let xmin := Math_min allX in
  let xmax := Math_max allX in
  let ymin := Math_min allY in
  let ymax := Math_max allY in
  let padding := nmul lit_0_2 (Math_max [nsub xmax xmin; nsub ymax ymin]) in
  mkBounds xmin xmax ymin ymax padding
           (nsub xmin padding, nadd xmax padding)
           (nsub ymin padding, nadd ymax padding).

(** The three traces of the frame pushed at index [i]. *)
Definition linkageTrace (a b c d : point num) : Trace.t num :=
  Trace.mk [fst a; fst b; fst c; fst d; fst a]
           [snd a; snd b; snd c; snd d; snd a]
           "lines+markers" (Some (Line.mk 3 None)) (Some (Marker.mk 8))
           None None None None.

Definition labelTrace (a b c d : point num) : Trace.t num :=
  Trace.mk [fst a; fst b; fst c; fst d]
           [snd a; snd b; snd c; snd d]
           "text" None None
           (Some ["A"; "B"; "C"; "D"]%string) (Some "top center"%string)
           (Some false) None.

(** [data.C.slice(0, i + 1).map(p => p[0])] and the same with [p[1]]. *)
Definition trailTrace (data : Response.t num) (i : nat) : Trace.t num :=
  Trace.mk (map fst (firstn (i + 1) (Response.C data)))
           (map snd (firstn (i + 1) (Response.C data)))
           "lines" (Some (Line.mk 2 (Some "dot"%string))) None
           None None None (Some "Workspace"%string).

(** The object literal of lines 46-90.  [data.A[i][0]] and its siblings
    throw when the array has no element [i]. *)
Definition buildFrame (data : Response.t num) (i : nat) : result (Frame.t num) :=
  a <- at_index (Response.A data) i ;;
  b <- at_index (Response.B data) i ;;
  c <- at_index (Response.C data) i ;;
  d <- at_index (Response.D data) i ;;
  Ok (Frame.mk [linkageTrace a b c d; labelTrace a b c d; trailTrace data i]).

(** One iteration of the loop: [frames.push({...})]. *)
Definition pushFrame (data : Response.t num)
  (frames : result (list (Frame.t num))) (i : nat)
  : result (list (Frame.t num)) :=
  fs <- frames ;;
  f <- buildFrame data i ;;
  Ok (fs ++ [f]).

(** [for (let i = 0; i < data.A.length; i++)] run on an array [frames0]. *)
Definition frameLoop (data : Response.t num) (frames0 : list (Frame.t num))
  : result (list (Frame.t num)) :=
  fold_left (pushFrame data) (seq 0 (List.length (Response.A data))) (Ok frames0).

(** [const frames = [];] followed by the loop. *)
Definition buildFrames (data : Response.t num) : result (list (Frame.t num)) :=
  frameLoop data [].

(** The block "Initial plot": centre, half-span and the layout object. *)
Definition cx (b : bounds) : num := nmul lit_0_5 (nadd (xmin b) (xmax b)).
Definition cy (b : bounds) : num := nmul lit_0_5 (nadd (ymin b) (ymax b)).
Definition span (b : bounds) : num :=
  nmul (Math_max [nsub (xmax b) (xmin b); nsub (ymax b) (ymin b)]) lit_0_6.

Definition initialLayout (b : bounds) : Layout.t num :=
  Layout.mk
    (Axis.mk (nsub (cx b) (span b), nadd (cx b) (span b))
             true 2 "black" (Some "y"%string))
    (Axis.mk (nsub (cy b) (span b), nadd (cy b) (span b))
             true 2 "black" None)
    false
    (Margin.mk 40 40 20 40).

Definition animateOpts : AnimOpts.t :=
  AnimOpts.mk (AnimFrame.mk 40 true) (Transition.mk 0) "afterall".

(** [animateLoop]: call [Plotly.animate]; when its promise resolves the
    [then] callback calls [animateLoop] again; when it rejects no callback
    is registered for that.  [settlements] is what the render target
    answers, in order; the run is observed up to the moment they end. *)
Fixpoint animateLoop (frames : list (Frame.t num)) (settlements : list settlement)
  : list (event num) :=
  Call (Animate "plot" frames animateOpts) ::
  match settlements with
  | [] => []
  | Resolved :: rest => Settle Resolved :: animateLoop frames rest
  | Rejected :: _ => [Settle Rejected]
  end.

(** The synchronous part up to the argument list of [Plotly.newPlot]:
    [frames[0].data] is evaluated before the call is made. *)
Definition prepare (data : Response.t num)
  : result (list (Frame.t num) * command num) :=
  let b := computeBounds data in
  frames <- buildFrames data ;;
  first <- at_index frames 0 ;;
  Ok (frames, NewPlot "plot" (Frame.data first) (initialLayout b)).

Definition runAnimation (data : Response.t num) (settlements : list settlement)
  : list (event num) :=
  match prepare data with
  | Throw e => [Uncaught e]
  | Ok (frames, newPlot) => Call newPlot :: animateLoop frames settlements
  end.

End Code.

(* ------------------------------------------------------------------ *)
(** ** Vocabulary of the properties *)

(** Order and equality of values on [xnum]: NaN compares with nothing,
    and two finite values are equal when the rationals are. *)
Definition xle (a b : xnum) : Prop :=
  match a, b with
  | NaN, _ | _, NaN => False
  | Fin p, Fin q => p <= q
  | NInf, _ | _, PInf => True
  | PInf, _ | _, NInf => False
  end.

Definition xlt (a b : xnum) : Prop :=
  match a, b with
  | NaN, _ | _, NaN => False
  | Fin p, Fin q => p < q
  | NInf, NInf | PInf, PInf => False
  | NInf, _ | _, PInf => True
  | PInf, _ | _, NInf => False
  end.

Definition xeq (a b : xnum) : Prop :=
  match a, b with
  | Fin p, Fin q => p == q
  | PInf, PInf | NInf, NInf => True
  | _, _ => False
  end.

(** A range [[lo, hi]] of the code against a rational interval. *)
Definition range_eq (r : xnum * xnum) (w : Q * Q) : Prop :=
  xeq (fst r) (Fin (fst w)) /\ xeq (snd r) (Fin (snd w)).

(** [v] lies in the closed range [r]; strictly inside it. *)
Definition in_range (r : xnum * xnum) (v : Q) : Prop :=
  xle (fst r) (Fin v) /\ xle (Fin v) (snd r).


(** A range that shows something: its lower end is below its upper end. *)
Definition proper_range (r : xnum * xnum) : Prop := xlt (fst r) (snd r).

(** A motion series with real coordinates, as the response the code
    receives. *)
Definition inject (ms : list (Pose.t Q)) : Response.t xnum :=
  of_series (map (Pose.map Fin) ms).

(** Every position of every pose. *)
Definition positions {num : Type} (ms : list (Pose.t num)) : list (point num) :=
  flat_map Pose.joints ms.

(** [m] is the least (greatest) element of [qs]. *)
Definition is_min (m : Q) (qs : list Q) : Prop :=
  In m qs /\ forall q, In q qs -> m <= q.

Definition is_max (m : Q) (qs : list Q) : Prop :=
  In m qs /\ forall q, In q qs -> q <= m.

(** The windows as the specification words them (sections 4.1 and 8),
    over the positions of all poses. *)
Module Spec.

Definition minimum (qs : list Q) : option Q :=
  match qs with
  | [] => None
  | q :: rest => Some (fold_left Qmin rest q)
  end.

Definition maximum (qs : list Q) : option Q :=
  match qs with
  | [] => None
  | q :: rest => Some (fold_left Qmax rest q)
  end.

Record extent : Type := mkExtent {
  xmin : Q;
  xmax : Q;
  ymin : Q;
  ymax : Q
}.

Definition extent_of (ms : list (Pose.t Q)) : option extent :=
  let xs := map fst (positions ms) in
  let ys := map snd (positions ms) in
  match minimum xs, maximum xs, minimum ys, maximum ys with
  | Some x0, Some x1, Some y0, Some y1 => Some (mkExtent x0 x1 y0 y1)
  | _, _, _, _ => None
  end.

Definition span0 (e : extent) : Q := Qmax (xmax e - xmin e) (ymax e - ymin e).

Definition padding (e : extent) : Q := 0.2 * span0 e.

Definition padded_x (e : extent) : Q * Q := (xmin e - padding e, xmax e + padding e).
Definition padded_y (e : extent) : Q * Q := (ymin e - padding e, ymax e + padding e).

Definition midpoint (a b : Q) : Q := (a + b) / 2.

Definition half_span (e : extent) : Q := 0.6 * span0 e.

Definition display_x (e : extent) : Q * Q :=
  (midpoint (xmin e) (xmax e) - half_span e, midpoint (xmin e) (xmax e) + half_span e).
Definition display_y (e : extent) : Q * Q :=
  (midpoint (ymin e) (ymax e) - half_span e, midpoint (ymin e) (ymax e) + half_span e).

End Spec.



Definition is_render_call {num : Type} (e : event num) : bool :=
  match e with
  | Call _ => true
  | _ => false
  end.

Definition is_animate {num : Type} (e : event num) : bool :=
  match e with
  | Call (Animate _ _ _) => true
  | _ => false
  end.

(** A trace in which play requests never overlap: a request is made only
    while none is in flight, and a settlement answers the one in flight. *)
Fixpoint no_overlap {num : Type} (in_flight : bool) (tr : list (event num)) : bool :=
  match tr with
  | [] => true
  | Call (Animate _ _ _) :: rest => negb in_flight && no_overlap true rest
  | Settle Resolved :: rest => in_flight && no_overlap false rest
  | Settle Rejected :: rest => in_flight && no_overlap false rest
  | _ :: rest => no_overlap in_flight rest
  end.

(** One frame on display: its index, the frame, how long it is held,
    whether a redraw is forced and how long the transition into it takes. *)
Inductive shown (num : Type) : Type :=
| Show (index : nat) (f : Frame.t num) (hold : nat) (redraw : bool) (ease : nat).

(** Modelled from the spec: the render target's "play this sequence once"
    operation (sections 4.4 and 6), which belongs to Plotly and is not in
    this repository: the frames of the request one after the other from
    the first to the last, each under the request's timing. *)
Definition play_pass {num : Type} (frames : list (Frame.t num)) (opts : AnimOpts.t)
  : list (shown num) :=
  map (fun jf => Show (fst jf) (snd jf)
                      (AnimFrame.duration (AnimOpts.frame opts))
                      (AnimFrame.redraw (AnimOpts.frame opts))
                      (Transition.duration (AnimOpts.transition opts)))
      (combine (seq 0 (List.length frames)) frames).

(** The specification's two-pose example, with rational and with binary64
    coordinates. *)
Definition example_series : list (Pose.t Q) :=
  [Pose.mk (0, 0) (1, 0) (1, 1) (0, 1);
   Pose.mk (0, 0) (0, 1) (-1, 1) (-1, 0)].

Definition example_series_float : list (Pose.t float) :=
  [Pose.mk (0, 0) (1, 0) (1, 1) (0, 1);
   Pose.mk (0, 0) (0, 1) (-1, 1) (-1, 0)]%float.

(** A motion series whose positions all coincide, and the empty one. *)
Definition still_series : list (Pose.t Q) :=
  [Pose.mk (1, 2) (1, 2) (1, 2) (1, 2);
   Pose.mk (1, 2) (1, 2) (1, 2) (1, 2)].

Definition still_series_float : list (Pose.t float) :=
  [Pose.mk (1, 2) (1, 2) (1, 2) (1, 2);
   Pose.mk (1, 2) (1, 2) (1, 2) (1, 2)]%float.

Definition empty_series : list (Pose.t Q) := [].



(** A response with real coordinates whose four arrays need not be
    equally long, as the code receives it. *)
Definition fin_point (p : point Q) : point xnum := (Fin (fst p), Fin (snd p)).

Definition fin_response (d : Response.t Q) : Response.t xnum :=
  Response.mk (map fin_point (Response.A d)) (map fin_point (Response.B d))
              (map fin_point (Response.C d)) (map fin_point (Response.D d)).

(** Every position a response holds, array after array. *)
Definition response_positions {num : Type} (d : Response.t num) : list (point num) :=
  Response.A d ++ Response.B d ++ Response.C d ++ Response.D d.

(** The response with [B], [C] and [D] cut to the length of [A]. *)
Definition truncate {num : Type} (d : Response.t num) : Response.t num :=
  let n := List.length (Response.A d) in
  Response.mk (Response.A d) (firstn n (Response.B d))
              (firstn n (Response.C d)) (firstn n (Response.D d)).

(** A motion series moved by [(dx, dy)]. *)
Definition shift_point (dx dy : Q) (p : point Q) : point Q :=
  (fst p + dx, snd p + dy).

Definition shift_pose (dx dy : Q) (p : Pose.t Q) : Pose.t Q :=
  Pose.mk (shift_point dx dy (Pose.A p)) (shift_point dx dy (Pose.B p))
          (shift_point dx dy (Pose.C p)) (shift_point dx dy (Pose.D p)).

Definition shift (dx dy : Q) (ms : list (Pose.t Q)) : list (Pose.t Q) :=
  map (shift_pose dx dy) ms.

(** Two ranges with equal ends; a range moved by [d]; a range that lies
    within another. *)
Definition same_range (r r' : xnum * xnum) : Prop :=
  xeq (fst r) (fst r') /\ xeq (snd r) (snd r').

Definition shift_range (d : Q) (r : xnum * xnum) : xnum * xnum :=
  (nadd (fst r) (Fin d), nadd (snd r) (Fin d)).

Definition range_within (r r' : xnum * xnum) : Prop :=
  xle (fst r') (fst r) /\ xle (snd r) (snd r').

(** How many promises resolve before the first one that does not. *)
Fixpoint leading_resolved (settlements : list settlement) : nat :=
  match settlements with
  | Resolved :: rest => S (leading_resolved rest)
  | _ => 0%nat
  end.

Definition is_newPlot {num : Type} (e : event num) : bool :=
  match e with
  | Call (NewPlot _ _ _) => true
  | _ => false
  end.

(** A response with one pose too few in [C], and one with a stray extra
    position in [D]. *)
Definition short_C_response : Response.t Q :=
  Response.mk [(0, 0); (0, 0)] [(1, 0); (0, 1)] [(1, 1)] [(0, 1); (-1, 0)].

Definition long_D_response : Response.t Q :=
  Response.mk [(0, 0)] [(1, 0)] [(1, 1)] [(0, 1); (7, -3)].

(** Unfolds the arithmetic of the code on finite values of [xnum]. *)
Ltac js_arith :=
  cbn [nsub nadd nmul lit_0_2 lit_0_5 lit_0_6 xnum_JsNumber xsub xadd xmul
       xmin xmax ymin ymax padding xRange yRange fst snd].

(* ------------------------------------------------------------------ *)
(** ** The bounds computation *)

Unset Implicit Arguments.

Section Pools.

Context {num : Type} {JN : JsNumber num}.

Lemma forEach_push_spec (arr : list (point num)) :
  forall pl, forEach_push arr pl = (fst pl ++ map fst arr, snd pl ++ map snd arr).
Proof.
  unfold forEach_push.
  induction arr as [|p arr IH]; intros [px py]; simpl.
  - now rewrite !app_nil_r.
  - rewrite IH. simpl. now rewrite <- !app_assoc.
Qed.

Lemma pools_spec (data : Response.t num) :
  pools data =
    (map fst (Response.A data) ++ map fst (Response.B data) ++
     map fst (Response.C data) ++ map fst (Response.D data),
     map snd (Response.A data) ++ map snd (Response.B data) ++
     map snd (Response.C data) ++ map snd (Response.D data)).
Proof.
  unfold pools. rewrite !forEach_push_spec. simpl.
  now rewrite <- !app_assoc.
Qed.

End Pools.

Lemma in_positions_iff {num : Type} (ms : list (Pose.t num)) (p : point num) :
  In p (positions ms) <->
  exists pose, In pose ms /\
    (p = Pose.A pose \/ p = Pose.B pose \/ p = Pose.C pose \/ p = Pose.D pose).
Proof.
  unfold positions. rewrite in_flat_map. split.
  - intros [pose [Hin Hj]]. exists pose. split; [exact Hin|].
    unfold Pose.joints in Hj. simpl in Hj. intuition congruence.
  - intros [pose [Hin Hj]]. exists pose. split; [exact Hin|].
    unfold Pose.joints. simpl. intuition congruence.
Qed.

(** The pools of a motion series hold exactly the coordinates of its
    positions. *)
Lemma pools_inject (ms : list (Pose.t Q)) :
  exists qx qy,
    pools (inject ms) = (map Fin qx, map Fin qy) /\
    (forall q, In q qx <-> In q (map fst (positions ms))) /\
    (forall q, In q qy <-> In q (map snd (positions ms))).
Proof.
  exists (map (fun p => fst (Pose.A p)) ms ++ map (fun p => fst (Pose.B p)) ms ++
          map (fun p => fst (Pose.C p)) ms ++ map (fun p => fst (Pose.D p)) ms).
  exists (map (fun p => snd (Pose.A p)) ms ++ map (fun p => snd (Pose.B p)) ms ++
          map (fun p => snd (Pose.C p)) ms ++ map (fun p => snd (Pose.D p)) ms).
  split; [|split].
  - rewrite pools_spec. unfold inject, of_series. simpl.
    rewrite !map_app, !map_map. reflexivity.
  - intro q. rewrite !in_app_iff, !in_map_iff. split.
    + intros [[p [E I]]|[[p [E I]]|[[p [E I]]|[p [E I]]]]]; subst q;
        eexists; (split; [reflexivity|]); apply in_positions_iff; exists p; auto.
    + intros [pt [E I]]. apply in_positions_iff in I.
      destruct I as [pose [I [J|[J|[J|J]]]]]; subst pt q;
        [left|right; left|right; right; left|right; right; right];
        exists pose; auto.
  - intro q. rewrite !in_app_iff, !in_map_iff. split.
    + intros [[p [E I]]|[[p [E I]]|[[p [E I]]|[p [E I]]]]]; subst q;
        eexists; (split; [reflexivity|]); apply in_positions_iff; exists p; auto.
    + intros [pt [E I]]. apply in_positions_iff in I.
      destruct I as [pose [I [J|[J|[J|J]]]]]; subst pt q;
        [left|right; left|right; right; left|right; right; right];
        exists pose; auto.
Qed.

(** [Math.min] and [Math.max] over finite values. *)
Lemma is_min_members (m : Q) (qs qs' : list Q) :
  (forall q, In q qs <-> In q qs') -> is_min m qs -> is_min m qs'.
Proof.
  intros E [I L]. split.
  - now apply E.
  - intros q Hq. apply L. now apply E.
Qed.

Lemma is_max_members (m : Q) (qs qs' : list Q) :
  (forall q, In q qs <-> In q qs') -> is_max m qs -> is_max m qs'.
Proof.
  intros E [I L]. split.
  - now apply E.
  - intros q Hq. apply L. now apply E.
Qed.

Lemma is_min_unique (m m' : Q) (qs : list Q) :
  is_min m qs -> is_min m' qs -> m == m'.
Proof.
  intros [I L] [I' L']. apply Qle_antisym; auto.
Qed.

Lemma is_max_unique (m m' : Q) (qs : list Q) :
  is_max m qs -> is_max m' qs -> m == m'.
Proof.
  intros [I L] [I' L']. apply Qle_antisym; auto.
Qed.

Lemma Qle_bool_false (a b : Q) : Qle_bool a b = false -> b < a.
Proof.
  intro H. apply Qnot_le_lt. intro L.
  apply Qle_bool_iff in L. congruence.
Qed.

Lemma fold_min_step_Fin (qs : list Q) :
  forall a, exists m,
    fold_left xmin_step (map Fin qs) (Fin a) = Fin m /\ is_min m (a :: qs).
Proof.
  induction qs as [|q qs IH]; intro a; simpl.
  - exists a. split; [reflexivity|]. split; [now left|].
    intros q [<-|[]]. apply Qle_refl.
  - destruct (Qle_bool a q) eqn:E; simpl.
    + destruct (IH a) as [m [F [I L]]]. exists m. split; [exact F|].
      apply Qle_bool_iff in E. split.
      * destruct I as [<-|I]; [now left|now right; right].
      * intros r [<-|[<-|Hr]].
        -- apply L. now left.
        -- apply Qle_trans with a; [apply L; now left|exact E].
        -- apply L. now right.
    + destruct (IH q) as [m [F [I L]]]. exists m. split; [exact F|].
      apply Qle_bool_false in E. split.
      * now right.
      * intros r [<-|[<-|Hr]].
        -- apply Qle_trans with q; [apply L; now left|now apply Qlt_le_weak].
        -- apply L. now left.
        -- apply L. now right.
Qed.

Lemma fold_max_step_Fin (qs : list Q) :
  forall a, exists m,
    fold_left xmax_step (map Fin qs) (Fin a) = Fin m /\ is_max m (a :: qs).
Proof.
  induction qs as [|q qs IH]; intro a; simpl.
  - exists a. split; [reflexivity|]. split; [now left|].
    intros q [<-|[]]. apply Qle_refl.
  - destruct (Qle_bool q a) eqn:E; simpl.
    + destruct (IH a) as [m [F [I L]]]. exists m. split; [exact F|].
      apply Qle_bool_iff in E. split.
      * destruct I as [<-|I]; [now left|now right; right].
      * intros r [<-|[<-|Hr]].
        -- apply L. now left.
        -- apply Qle_trans with a; [exact E|apply L; now left].
        -- apply L. now right.
    + destruct (IH q) as [m [F [I L]]]. exists m. split; [exact F|].
      apply Qle_bool_false in E. split.
      * now right.
      * intros r [<-|[<-|Hr]].
        -- apply Qle_trans with q; [now apply Qlt_le_weak|apply L; now left].
        -- apply L. now left.
        -- apply L. now right.
Qed.

Lemma Math_min_Fin (q : Q) (qs : list Q) :
  exists m, Math_min (map Fin (q :: qs)) = Fin m /\ is_min m (q :: qs).
Proof. unfold Math_min. simpl. apply fold_min_step_Fin. Qed.

Lemma Math_max_Fin (q : Q) (qs : list Q) :
  exists m, Math_max (map Fin (q :: qs)) = Fin m /\ is_max m (q :: qs).
Proof. unfold Math_max. simpl. apply fold_max_step_Fin. Qed.

(** [Math.max(a, b)] on two finite values. *)
Lemma Math_max_pair (a b : Q) :
  exists s, Math_max [Fin a; Fin b] = Fin s /\ s == Qmax a b.
Proof.
  destruct (Math_max_Fin a [b]) as [s [E [I L]]]. exists s. split; [exact E|].
  apply Qle_antisym.
  - destruct I as [<-|[<-|[]]]; [apply Q.le_max_l|apply Q.le_max_r].
  - apply Q.max_lub; apply L; simpl; auto.
Qed.


Lemma positions_nonempty {num : Type} (ms : list (Pose.t num)) :
  ms <> [] -> exists p, In p (positions ms).
Proof.
  destruct ms as [|pose ms]; [congruence|]. intros _.
  exists (Pose.A pose). apply in_positions_iff. exists pose. simpl. auto.
Qed.

(** The bounds of a non-empty motion series: all seven constants are
    finite, the extrema are those of the positions, and [s] is the value
    of [Math.max(xmax - xmin, ymax - ymin)]. *)
Lemma bounds_inject (ms : list (Pose.t Q)) :
  ms <> [] ->
  exists x0 x1 y0 y1 s,
    is_min x0 (map fst (positions ms)) /\ is_max x1 (map fst (positions ms)) /\
    is_min y0 (map snd (positions ms)) /\ is_max y1 (map snd (positions ms)) /\
    s == Qmax (x1 - x0) (y1 - y0) /\
    Math_max [Fin (x1 - x0); Fin (y1 - y0)] = Fin s /\
    computeBounds (inject ms) =
      mkBounds (Fin x0) (Fin x1) (Fin y0) (Fin y1) (Fin (0.2 * s))
               (Fin (x0 - 0.2 * s), Fin (x1 + 0.2 * s))
               (Fin (y0 - 0.2 * s), Fin (y1 + 0.2 * s)).
Proof.
  intro Hne.
  destruct (pools_inject ms) as [qx [qy [P [EX EY]]]].
  destruct (positions_nonempty ms Hne) as [p Hp].
  destruct qx as [|qx0 qx].
  { exfalso. apply (EX (fst p)). now apply in_map. }
  destruct qy as [|qy0 qy].
  { exfalso. apply (EY (snd p)). now apply in_map. }
  destruct (Math_min_Fin qx0 qx) as [x0 [Ex0 Hx0]].
  destruct (Math_max_Fin qx0 qx) as [x1 [Ex1 Hx1]].
  destruct (Math_min_Fin qy0 qy) as [y0 [Ey0 Hy0]].
  destruct (Math_max_Fin qy0 qy) as [y1 [Ey1 Hy1]].
  destruct (Math_max_pair (x1 - x0) (y1 - y0)) as [s [Es Hs]].
  exists x0, x1, y0, y1, s.
  split; [eapply is_min_members; eassumption|].
  split; [eapply is_max_members; eassumption|].
  split; [eapply is_min_members; eassumption|].
  split; [eapply is_max_members; eassumption|].
  split; [exact Hs|]. split; [exact Es|].
  unfold computeBounds. rewrite P.
  cbn [fst snd]. rewrite Ex0, Ex1, Ey0, Ey1. js_arith.
  rewrite Es. js_arith. reflexivity.
Qed.

(** The extrema the specification's wording computes. *)
Lemma Qmin_cases (a b : Q) : Qmin a b = a \/ Qmin a b = b.
Proof. unfold Qmin, GenericMinMax.gmin. destruct (a ?= b); auto. Qed.

Lemma Qmax_cases (a b : Q) : Qmax a b = a \/ Qmax a b = b.
Proof. unfold Qmax, GenericMinMax.gmax. destruct (a ?= b); auto. Qed.

Lemma fold_Qmin_is_min (qs : list Q) :
  forall a, is_min (fold_left Qmin qs a) (a :: qs).
Proof.
  induction qs as [|q qs IH]; intro a; simpl.
  - split; [now left|]. intros q [<-|[]]. apply Qle_refl.
  - destruct (IH (Qmin a q)) as [I L]. split.
    + destruct I as [E|I]; [|now right; right].
      rewrite <- E. destruct (Qmin_cases a q) as [-> | ->]; simpl; auto.
    + intros r [<-|[<-|Hr]].
      * apply Qle_trans with (Qmin a q); [apply L; now left|apply Q.le_min_l].
      * apply Qle_trans with (Qmin a q); [apply L; now left|apply Q.le_min_r].
      * apply L. now right.
Qed.

Lemma fold_Qmax_is_max (qs : list Q) :
  forall a, is_max (fold_left Qmax qs a) (a :: qs).
Proof.
  induction qs as [|q qs IH]; intro a; simpl.
  - split; [now left|]. intros q [<-|[]]. apply Qle_refl.
  - destruct (IH (Qmax a q)) as [I L]. split.
    + destruct I as [E|I]; [|now right; right].
      rewrite <- E. destruct (Qmax_cases a q) as [-> | ->]; simpl; auto.
    + intros r [<-|[<-|Hr]].
      * apply Qle_trans with (Qmax a q); [apply Q.le_max_l|apply L; now left].
      * apply Qle_trans with (Qmax a q); [apply Q.le_max_r|apply L; now left].
      * apply L. now right.
Qed.

Lemma extent_of_spec (ms : list (Pose.t Q)) :
  ms <> [] ->
  exists e, Spec.extent_of ms = Some e /\
    is_min (Spec.xmin e) (map fst (positions ms)) /\
    is_max (Spec.xmax e) (map fst (positions ms)) /\
    is_min (Spec.ymin e) (map snd (positions ms)) /\
    is_max (Spec.ymax e) (map snd (positions ms)).
Proof.
  intro Hne. unfold Spec.extent_of.
  destruct (positions_nonempty ms Hne) as [p Hp].
  destruct (positions ms) as [|p0 ps]; [destruct Hp|]. simpl.
  eexists. split; [reflexivity|]. simpl.
  repeat split; first [apply fold_Qmin_is_min | apply fold_Qmax_is_max].
Qed.

(** The code's bounds against the specification's extent. *)
Lemma bounds_vs_extent (ms : list (Pose.t Q)) :
  ms <> [] ->
  exists e x0 x1 y0 y1 s,
    Spec.extent_of ms = Some e /\
    x0 == Spec.xmin e /\ x1 == Spec.xmax e /\
    y0 == Spec.ymin e /\ y1 == Spec.ymax e /\
    s == Spec.span0 e /\
    Math_max [Fin (x1 - x0); Fin (y1 - y0)] = Fin s /\
    computeBounds (inject ms) =
      mkBounds (Fin x0) (Fin x1) (Fin y0) (Fin y1) (Fin (0.2 * s))
               (Fin (x0 - 0.2 * s), Fin (x1 + 0.2 * s))
               (Fin (y0 - 0.2 * s), Fin (y1 + 0.2 * s)).
Proof.
  intro Hne.
  destruct (extent_of_spec ms Hne) as [e [He [Mx0 [Mx1 [My0 My1]]]]].
  destruct (bounds_inject ms Hne) as [x0 [x1 [y0 [y1 [s [Hx0 [Hx1 [Hy0 [Hy1 [Hs [Es Eb]]]]]]]]]]].
  exists e, x0, x1, y0, y1, s.
  assert (Ex0 : x0 == Spec.xmin e) by (eapply is_min_unique; eassumption).
  assert (Ex1 : x1 == Spec.xmax e) by (eapply is_max_unique; eassumption).
  assert (Ey0 : y0 == Spec.ymin e) by (eapply is_min_unique; eassumption).
  assert (Ey1 : y1 == Spec.ymax e) by (eapply is_max_unique; eassumption).
  repeat (split; [assumption|]).
  split; [|split; assumption].
  unfold Spec.span0. rewrite Hs, Ex0, Ex1, Ey0, Ey1. reflexivity.
Qed.

(** What [lra] needs to know about a maximum of two spans. *)
Lemma span_facts (s a b : Q) : s == Qmax a b -> a <= s /\ b <= s /\ (s == a \/ s == b).
Proof.
  intro H. rewrite H. split; [apply Q.le_max_l|]. split; [apply Q.le_max_r|].
  destruct (Q.max_dec a b) as [E|E]; rewrite E; [left|right]; reflexivity.
Qed.

Lemma Qhalf (a : Q) : a / 2 == a * (1 # 2).
Proof. reflexivity. Qed.

(* ------------------------------------------------------------------ *)
(** ** The frame-building loop *)

Section Frames.

Context {num : Type}.

#[local] Open Scope nat_scope.

Implicit Types (data : Response.t num) (ms : list (Pose.t num)).

Lemma pushFrame_Ok data (fs : list (Frame.t num)) (i : nat) :
  pushFrame data (Ok fs) i = f <- buildFrame data i ;; Ok (fs ++ [f]).
Proof. reflexivity. Qed.

(** The loop never looks at what [frames] already holds: started on
    [frames0] it appends what it would have built from the empty array. *)
Lemma frameLoop_append data (idxs : list nat) :
  forall frames0,
    fold_left (pushFrame data) idxs (Ok frames0) =
    fl <- fold_left (pushFrame data) idxs (Ok []) ;; Ok (frames0 ++ fl).
Proof.
  induction idxs as [|i idxs IH] using rev_ind; intro frames0.
  - simpl. now rewrite app_nil_r.
  - rewrite !fold_left_app. cbn [fold_left]. rewrite IH.
    destruct (fold_left (pushFrame data) idxs (Ok [])) as [fl|e]; cbn [bind].
    + rewrite !pushFrame_Ok.
      destruct (buildFrame data i) as [f|e]; cbn [bind]; [|reflexivity].
      now rewrite app_assoc.
    + reflexivity.
Qed.

(** A finished loop over [0 .. n-1] holds, at index [i], the frame built
    for [i]. *)
Lemma frameLoop_seq data (n : nat) :
  forall fl, fold_left (pushFrame data) (seq 0 n) (Ok []) = Ok fl ->
    List.length fl = n /\
    forall i f, nth_error fl i = Some f -> buildFrame data i = Ok f.
Proof.
  induction n as [|n IH]; intros fl H.
  - simpl in H. injection H as <-. split; [reflexivity|].
    intros [|i] f E; discriminate E.
  - rewrite seq_S, fold_left_app in H. cbn [fold_left Nat.add] in H.
    destruct (fold_left (pushFrame data) (seq 0 n) (Ok [])) as [fl0|e];
      [|discriminate H].
    rewrite pushFrame_Ok in H.
    destruct (buildFrame data n) as [f|e] eqn:B; [|discriminate H].
    cbn [bind] in H. injection H as <-.
    destruct (IH fl0 eq_refl) as [L N]. split.
    + rewrite length_app. simpl. lia.
    + intros i g E. destruct (Nat.lt_ge_cases i (List.length fl0)) as [Hi|Hi].
      * rewrite nth_error_app1 in E by exact Hi. now apply N.
      * rewrite nth_error_app2 in E by exact Hi.
        destruct (i - List.length fl0) as [|k] eqn:K.
        -- simpl in E. injection E as <-.
           replace i with n by lia. exact B.
        -- destruct k; discriminate E.
Qed.

Lemma frameLoop_total data (n : nat) :
  (forall i, i < n -> exists f, buildFrame data i = Ok f) ->
  exists fl, fold_left (pushFrame data) (seq 0 n) (Ok []) = Ok fl.
Proof.
  induction n as [|n IH]; intro H.
  - exists []. reflexivity.
  - destruct IH as [fl0 E]; [intros i Hi; apply H; lia|].
    destruct (H n) as [f B]; [lia|].
    exists (fl0 ++ [f]).
    rewrite seq_S, fold_left_app. cbn [fold_left Nat.add].
    rewrite E, pushFrame_Ok, B.
    reflexivity.
Qed.

(** On the response of a motion series every index finds its pose. *)
Lemma buildFrame_of_series ms (i : nat) (pose : Pose.t num) :
  nth_error ms i = Some pose ->
  buildFrame (of_series ms) i =
    Ok (Frame.mk [linkageTrace (Pose.A pose) (Pose.B pose) (Pose.C pose) (Pose.D pose);
                  labelTrace (Pose.A pose) (Pose.B pose) (Pose.C pose) (Pose.D pose);
                  trailTrace (of_series ms) i]).
Proof.
  intro H. unfold buildFrame, at_index, of_series. cbn [Response.A Response.B Response.C Response.D].
  rewrite !nth_error_map, H. reflexivity.
Qed.

Lemma buildFrames_of_series ms :
  exists frames,
    buildFrames (of_series ms) = Ok frames /\
    List.length frames = List.length ms /\
    forall i pose, nth_error ms i = Some pose ->
      nth_error frames i =
        Some (Frame.mk [linkageTrace (Pose.A pose) (Pose.B pose) (Pose.C pose) (Pose.D pose);
                        labelTrace (Pose.A pose) (Pose.B pose) (Pose.C pose) (Pose.D pose);
                        trailTrace (of_series ms) i]).
Proof.
  unfold buildFrames, frameLoop.
  assert (LA : List.length (Response.A (of_series ms)) = List.length ms)
    by (unfold of_series; cbn [Response.A]; now rewrite length_map).
  rewrite LA.
  destruct (frameLoop_total (of_series ms) (List.length ms)) as [fl E].
  { intros i Hi. destruct (nth_error ms i) as [pose|] eqn:P.
    - eexists. apply buildFrame_of_series. exact P.
    - apply nth_error_None in P. lia. }
  exists fl. split; [exact E|].
  destruct (frameLoop_seq _ _ _ E) as [L N]. split; [exact L|].
  intros i pose P.
  destruct (nth_error fl i) as [f|] eqn:F.
  - apply N in F. rewrite (buildFrame_of_series _ _ _ P) in F. congruence.
  - apply nth_error_None in F.
    assert (i < List.length ms) by (apply nth_error_Some; congruence). lia.
Qed.

Lemma combine_fst_snd (ps : list (point num)) :
  combine (map fst ps) (map snd ps) = ps.
Proof.
  induction ps as [|[px py] ps IH]; simpl; [reflexivity|]. now rewrite IH.
Qed.

Lemma firstn_snoc {T : Type} (l : list T) :
  forall i v, nth_error l i = Some v -> firstn (i + 1) l = firstn i l ++ [v].
Proof.
  induction l as [|h l IH]; intros [|i] v H; try discriminate H.
  - simpl in H. injection H as <-. reflexivity.
  - simpl. f_equal. now apply IH.
Qed.

Lemma trail_points ms (i : nat) :
  Trace.points (trailTrace (of_series ms) i) = map (@Pose.C num) (firstn (i + 1) ms).
Proof.
  unfold Trace.points, trailTrace. cbn [Trace.x Trace.y].
  rewrite combine_fst_snd. unfold of_series. cbn [Response.C].
  apply firstn_map.
Qed.

End Frames.

(** The two coordinate arrays of a trail, each sliced on its own. *)
Lemma trail_x {num : Type} (ms : list (Pose.t num)) (i : nat) :
  Trace.x (trailTrace (of_series ms) i) =
    map (fun p => fst (Pose.C p)) (firstn (i + 1) ms).
Proof.
  unfold trailTrace, of_series. cbn [Trace.x Response.C].
  now rewrite firstn_map, map_map.
Qed.

Lemma trail_y {num : Type} (ms : list (Pose.t num)) (i : nat) :
  Trace.y (trailTrace (of_series ms) i) =
    map (fun p => snd (Pose.C p)) (firstn (i + 1) ms).
Proof.
  unfold trailTrace, of_series. cbn [Trace.y Response.C].
  now rewrite firstn_map, map_map.
Qed.

(* ------------------------------------------------------------------ *)
(** ** The frame sequence *)

(** C3: a motion series of N poses yields exactly N frames, frame [i]
    built from pose [i]; the linkage polyline of frame [i] has the five
    points A, B, C, D, A of pose [i], so it starts and ends at A. *)
Theorem C3_one_frame_per_pose_with_closed_polyline {num : Type}
  (ms : list (Pose.t num)) :
  exists frames,
    buildFrames (of_series ms) = Ok frames /\
    List.length frames = List.length ms /\
    forall i pose, nth_error ms i = Some pose ->
      exists f linkage rest,
        nth_error frames i = Some f /\
        Frame.data f = linkage :: rest /\
        Trace.points linkage =
          [Pose.A pose; Pose.B pose; Pose.C pose; Pose.D pose; Pose.A pose] /\
        List.length (Trace.points linkage) = 5%nat /\
        hd_error (Trace.points linkage) = Some (Pose.A pose) /\
        nth_error (Trace.points linkage) 4 = Some (Pose.A pose).
Proof.
  destruct (buildFrames_of_series ms) as [frames [E [L N]]].
  exists frames. split; [exact E|]. split; [exact L|].
  intros i pose P. do 3 eexists.
  split; [exact (N i pose P)|]. split; [reflexivity|].
  destruct pose as [[ax ay] [bx by_] [cx_ cy_] [dx dy]].
  repeat split; reflexivity.
Qed.

Lemma C3_witness :
  exists frames linkage rest,
    buildFrames (of_series example_series) = Ok frames /\
    List.length frames = 2%nat /\
    option_map (@Frame.data Q) (nth_error frames 0) = Some (linkage :: rest) /\
    Trace.points linkage = [(0, 0); (1, 0); (1, 1); (0, 1); (0, 0)].
Proof.
  destruct (C3_one_frame_per_pose_with_closed_polyline example_series)
    as [frames [E [L N]]].
  destruct (N 0%nat (Pose.mk (0, 0) (1, 0) (1, 1) (0, 1)) eq_refl)
    as [f [linkage [rest [F [D [P _]]]]]].
  exists frames, linkage, rest.
  split; [exact E|]. split; [exact L|].
  rewrite F. cbn [option_map]. rewrite D. split; [reflexivity|exact P].
Defined.

(** C4: the trace of frame [i] has [i + 1] points, the positions of
    joint C at steps 0 to [i] in that order: its x array and its y array
    are, each on its own, the x and the y coordinates of C at steps 0 to
    [i].  Frame 0's trace is the single point C of step 0, and the trace
    of frame [i], [i >= 1], is that of frame [i - 1] with C of step [i]
    added at the end of both arrays. *)
Theorem C4_trace_is_the_growing_prefix_of_C {num : Type}
  (ms : list (Pose.t num)) :
  exists frames,
    buildFrames (of_series ms) = Ok frames /\
    forall i pose, nth_error ms i = Some pose ->
      exists f trail,
        nth_error frames i = Some f /\
        nth_error (Frame.data f) 2 = Some trail /\
        Trace.x trail = map (fun p => fst (Pose.C p)) (firstn (i + 1) ms) /\
        Trace.y trail = map (fun p => snd (Pose.C p)) (firstn (i + 1) ms) /\
        List.length (Trace.x trail) = (i + 1)%nat /\
        List.length (Trace.y trail) = (i + 1)%nat /\
        Trace.points trail = map (@Pose.C num) (firstn (i + 1) ms) /\
        List.length (Trace.points trail) = (i + 1)%nat /\
        (i = 0%nat ->
           Trace.x trail = [fst (Pose.C pose)] /\
           Trace.y trail = [snd (Pose.C pose)] /\
           Trace.points trail = [Pose.C pose]) /\
        (forall j, i = S j ->
           exists f' trail',
             nth_error frames j = Some f' /\
             nth_error (Frame.data f') 2 = Some trail' /\
             List.length (Trace.x trail') = i /\
             List.length (Trace.y trail') = i /\
             List.length (Trace.points trail') = i /\
             Trace.x trail = Trace.x trail' ++ [fst (Pose.C pose)] /\
             Trace.y trail = Trace.y trail' ++ [snd (Pose.C pose)] /\
             Trace.points trail = Trace.points trail' ++ [Pose.C pose]).
Proof.
  destruct (buildFrames_of_series ms) as [frames [E [L N]]].
  exists frames. split; [exact E|].
  intros i pose P. do 2 eexists.
  split; [exact (N i pose P)|]. split; [reflexivity|].
  assert (Hi : (i < List.length ms)%nat) by (apply nth_error_Some; congruence).
  assert (Hlen : forall k, (k < List.length ms)%nat ->
            List.length (firstn (k + 1) ms) = (k + 1)%nat)
    by (intros k Hk; rewrite length_firstn; lia).
  rewrite trail_x, trail_y, trail_points, !length_map, (Hlen i Hi).
  do 6 (split; [reflexivity|]).
  split.
  - intros ->. destruct ms as [|p0 ms']; [discriminate P|].
    simpl in P. injection P as ->. repeat split; reflexivity.
  - intros j ->.
    destruct (nth_error ms j) as [prev|] eqn:Pj;
      [|apply nth_error_None in Pj; lia].
    do 2 eexists. split; [exact (N j prev Pj)|]. split; [reflexivity|].
    rewrite trail_x, trail_y, trail_points, !length_map, (Hlen j) by lia.
    rewrite (firstn_snoc ms (S j) pose P), !map_app.
    replace (j + 1)%nat with (S j) by lia.
    repeat split; reflexivity.
Qed.

Lemma C4_witness :
  exists frames trail0 trail1,
    buildFrames (of_series example_series) = Ok frames /\
    option_map (fun f => nth_error (Frame.data f) 2) (nth_error frames 0)
      = Some (Some trail0) /\
    option_map (fun f => nth_error (Frame.data f) 2) (nth_error frames 1)
      = Some (Some trail1) /\
    (Trace.x trail0 = [1] /\ Trace.y trail0 = [1]) /\
    (Trace.x trail1 = [1; -1] /\ Trace.y trail1 = [1; 1]).
Proof.
  destruct (C4_trace_is_the_growing_prefix_of_C example_series)
    as [frames [E N]].
  destruct (N 0%nat (Pose.mk (0, 0) (1, 0) (1, 1) (0, 1)) eq_refl)
    as [f0 [t0 [F0 [D0 [X0 [Y0 _]]]]]].
  destruct (N 1%nat (Pose.mk (0, 0) (0, 1) (-1, 1) (-1, 0)) eq_refl)
    as [f1 [t1 [F1 [D1 [X1 [Y1 _]]]]]].
  exists frames, t0, t1.
  split; [exact E|]. rewrite F0, F1. cbn [option_map]. rewrite D0, D1.
  repeat split; assumption.
Defined.

(* ------------------------------------------------------------------ *)
(** ** The view windows *)

Ltac span_facts_in H :=
  let A := fresh "Hsa" in
  let B := fresh "Hsb" in
  let C := fresh "Hsc" in
  destruct (span_facts _ _ _ H) as [A [B C]].

(** C1: for every non-empty motion series, every position of every pose
    lies inside the padded view window: [xmin - padding <= x <= xmax + padding]
    and [ymin - padding <= y <= ymax + padding], where the four extrema are
    the least and greatest coordinates over all joints and steps and
    [padding = 0.2 * max(xmax - xmin, ymax - ymin)]. *)
Theorem C1_padded_window_contains_every_position (ms : list (Pose.t Q)) :
  ms <> [] ->
  let b := computeBounds (inject ms) in
  (forall pose p, In pose ms -> In p (Pose.joints pose) ->
     xle (nsub (xmin b) (padding b)) (Fin (fst p)) /\
     xle (Fin (fst p)) (nadd (xmax b) (padding b)) /\
     xle (nsub (ymin b) (padding b)) (Fin (snd p)) /\
     xle (Fin (snd p)) (nadd (ymax b) (padding b))) /\
  xRange b = (nsub (xmin b) (padding b), nadd (xmax b) (padding b)) /\
  yRange b = (nsub (ymin b) (padding b), nadd (ymax b) (padding b)) /\
  padding b =
    nmul lit_0_2 (Math_max [nsub (xmax b) (xmin b); nsub (ymax b) (ymin b)]) /\
  (exists x0 x1 y0 y1,
     xmin b = Fin x0 /\ is_min x0 (map fst (positions ms)) /\
     xmax b = Fin x1 /\ is_max x1 (map fst (positions ms)) /\
     ymin b = Fin y0 /\ is_min y0 (map snd (positions ms)) /\
     ymax b = Fin y1 /\ is_max y1 (map snd (positions ms))).
Proof.
  intros Hne b.
  destruct (bounds_inject ms Hne)
    as [x0 [x1 [y0 [y1 [s [Hx0 [Hx1 [Hy0 [Hy1 [Hs [Es Eb]]]]]]]]]]].
  split; [|split; [reflexivity|split; [reflexivity|split; [reflexivity|]]]].
  - intros pose p Hpose Hp. subst b. rewrite Eb. js_arith.
    assert (Hin : In p (positions ms))
      by (unfold positions; apply in_flat_map; exists pose; auto).
    assert (Hx : In (fst p) (map fst (positions ms))) by now apply in_map.
    assert (Hy : In (snd p) (map snd (positions ms))) by now apply in_map.
    pose proof (proj2 Hx0 _ Hx). pose proof (proj2 Hx1 _ Hx).
    pose proof (proj2 Hy0 _ Hy). pose proof (proj2 Hy1 _ Hy).
    span_facts_in Hs. unfold xle. repeat split; lra.
  - subst b. rewrite Eb. js_arith. exists x0, x1, y0, y1. auto 10.
Qed.

Lemma C1_witness :
  example_series <> [] /\
  let b := computeBounds (inject example_series) in
  xle (nsub (xmin b) (padding b)) (Fin (-1)) /\
  xle (Fin (-1)) (nadd (xmax b) (padding b)) /\
  xle (nsub (ymin b) (padding b)) (Fin 1) /\
  xle (Fin 1) (nadd (ymax b) (padding b)).
Proof.
  assert (Hne : example_series <> []) by discriminate.
  split; [exact Hne|].
  apply (proj1 (C1_padded_window_contains_every_position example_series Hne)
           (Pose.mk (0, 0) (0, 1) (-1, 1) (-1, 0)) (-1, 1)).
  - simpl. auto.
  - simpl. auto.
Defined.

(** C2: the bounds estimator returns the padded window the specification
    words: pool the coordinates of all four joints over all steps, take
    the extrema, [padding = 0.2 * max(xmax - xmin, ymax - ymin)], x-range
    [[xmin - padding, xmax + padding]], y-range likewise.  On the two-pose
    example the x-range is [[-1.4, 1.4]] and the y-range [[-0.4, 1.4]],
    in exact arithmetic and in binary64. *)
Theorem C2_bounds_estimator_computes_padded_window (ms : list (Pose.t Q)) :
  ms <> [] ->
  (exists e,
     Spec.extent_of ms = Some e /\
     range_eq (xRange (computeBounds (inject ms))) (Spec.padded_x e) /\
     range_eq (yRange (computeBounds (inject ms))) (Spec.padded_y e)) /\
  (range_eq (xRange (computeBounds (inject example_series))) (-1.4, 1.4) /\
   range_eq (yRange (computeBounds (inject example_series))) (-0.4, 1.4)) /\
  (xRange (computeBounds (of_series example_series_float)) = (-1.4, 1.4)%float /\
   yRange (computeBounds (of_series example_series_float)) = (-0.4, 1.4)%float).
Proof.
  intro Hne. split; [|split].
  - destruct (bounds_vs_extent ms Hne)
      as [e [x0 [x1 [y0 [y1 [s [He [Ex0 [Ex1 [Ey0 [Ey1 [Hs [Es Eb]]]]]]]]]]]]].
    exists e. split; [exact He|]. rewrite Eb. js_arith.
    unfold range_eq, Spec.padded_x, Spec.padded_y, Spec.padding, xeq.
    cbn [fst snd]. rewrite <- Hs. repeat split; lra.
  - vm_compute. auto.
  - vm_compute. auto.
Qed.

Lemma C2_witness :
  still_series <> [] /\
  exists e,
    Spec.extent_of still_series = Some e /\
    range_eq (xRange (computeBounds (inject still_series))) (Spec.padded_x e) /\
    range_eq (yRange (computeBounds (inject still_series))) (Spec.padded_y e).
Proof.
  assert (Hne : still_series <> []) by discriminate.
  split; [exact Hne|].
  exact (proj1 (C2_bounds_estimator_computes_padded_window still_series Hne)).
Defined.

(* ------------------------------------------------------------------ *)
(** ** What reaches the render target *)


(** On a non-empty motion series the run gets as far as [Plotly.newPlot],
    which receives the first frame and the layout, and then enters the
    playback loop. *)
Lemma runAnimation_of_series {num : Type} {JN : JsNumber num}
  (ms : list (Pose.t num)) (settlements : list settlement) :
  ms <> [] ->
  exists frames first,
    buildFrames (of_series ms) = Ok frames /\
    nth_error frames 0 = Some first /\
    runAnimation (of_series ms) settlements =
      Call (NewPlot "plot" (Frame.data first)
                    (initialLayout (computeBounds (of_series ms))))
      :: animateLoop frames settlements.
Proof.
  intro Hne. destruct ms as [|pose ms]; [congruence|].
  destruct (buildFrames_of_series (pose :: ms)) as [frames [E [_ N]]].
  specialize (N 0%nat pose eq_refl).
  do 2 eexists. split; [exact E|]. split; [exact N|].
  unfold runAnimation, prepare. rewrite E. cbn [bind].
  unfold at_index. rewrite N. reflexivity.
Qed.

(** C6: the display window of the initial static render has centre
    [(cx, cy)], the midpoints of the extrema, and half-span
    [0.6 * span0] with [span0 = max(xmax - xmin, ymax - ymin)]; both axis
    ranges are [[centre - half-span, centre + half-span]] with that one
    half-span, and the x axis is anchored to the scale of the y axis. *)
Theorem C6_display_window_of_initial_render (ms : list (Pose.t Q))
  (settlements : list settlement) :
  ms <> [] ->
  let b := computeBounds (inject ms) in
  let layout := initialLayout b in
  exists e frames first,
    Spec.extent_of ms = Some e /\
    runAnimation (inject ms) settlements =
      Call (NewPlot "plot" (Frame.data first) layout)
      :: animateLoop frames settlements /\
    xeq (cx b) (Fin (Spec.midpoint (Spec.xmin e) (Spec.xmax e))) /\
    xeq (cy b) (Fin (Spec.midpoint (Spec.ymin e) (Spec.ymax e))) /\
    xeq (span b) (Fin (0.6 * Spec.span0 e)) /\
    Axis.range (Layout.xaxis layout) = (nsub (cx b) (span b), nadd (cx b) (span b)) /\
    Axis.range (Layout.yaxis layout) = (nsub (cy b) (span b), nadd (cy b) (span b)) /\
    range_eq (Axis.range (Layout.xaxis layout)) (Spec.display_x e) /\
    range_eq (Axis.range (Layout.yaxis layout)) (Spec.display_y e) /\
    snd (Spec.display_x e) - fst (Spec.display_x e) ==
      snd (Spec.display_y e) - fst (Spec.display_y e) /\
    Axis.scaleanchor (Layout.xaxis layout) = Some "y"%string /\
    Axis.scaleanchor (Layout.yaxis layout) = None.
Proof.
  intros Hne b layout.
  destruct (bounds_vs_extent ms Hne)
    as [e [x0 [x1 [y0 [y1 [s [He [Ex0 [Ex1 [Ey0 [Ey1 [Hs [Es Eb]]]]]]]]]]]]].
  assert (Hne' : map (Pose.map Fin) ms <> [])
    by (destruct ms; [congruence|discriminate]).
  destruct (runAnimation_of_series _ settlements Hne') as [frames [first [_ [_ R]]]].
  exists e, frames, first.
  split; [exact He|]. split; [exact R|].
  subst layout b. unfold initialLayout, cx, cy, span.
  cbn [Layout.xaxis Layout.yaxis Axis.range Axis.scaleanchor].
  rewrite Eb. js_arith. rewrite Es. js_arith.
  unfold range_eq, Spec.display_x, Spec.display_y, Spec.half_span,
    Spec.midpoint, xeq.
  cbn [fst snd]. rewrite !Qhalf, <- Hs.
  repeat split; lra.
Qed.

Lemma C6_witness :
  example_series <> [] /\
  exists e,
    Spec.extent_of example_series = Some e /\
    range_eq (Axis.range (Layout.xaxis
                (initialLayout (computeBounds (inject example_series)))))
             (Spec.display_x e) /\
    range_eq (Axis.range (Layout.yaxis
                (initialLayout (computeBounds (inject example_series)))))
             (Spec.display_y e).
Proof.
  assert (Hne : example_series <> []) by discriminate.
  split; [exact Hne|].
  destruct (C6_display_window_of_initial_render example_series [] Hne)
    as [e [_ [_ [He [_ [_ [_ [_ [_ [_ [Hx [Hy _]]]]]]]]]]]].
  exists e. auto.
Defined.

(** C8 (as the code has it): when all positions of a non-empty motion
    series coincide at [(px, py)], the padding and the display half-span
    are both 0 and no minimum span takes their place: the padded window
    and the display window both collapse to x-range [[px, px]] and
    y-range [[py, py]]. *)
Theorem C8_coincident_positions_collapse_the_windows (ms : list (Pose.t Q))
  (px py : Q) :
  ms <> [] ->
  (forall p, In p (positions ms) -> fst p == px /\ snd p == py) ->
  let b := computeBounds (inject ms) in
  xeq (padding b) (Fin 0) /\
  xeq (span b) (Fin 0) /\
  range_eq (xRange b) (px, px) /\
  range_eq (yRange b) (py, py) /\
  range_eq (Axis.range (Layout.xaxis (initialLayout b))) (px, px) /\
  range_eq (Axis.range (Layout.yaxis (initialLayout b))) (py, py).
Proof.
  intros Hne Hall b.
  destruct (bounds_inject ms Hne)
    as [x0 [x1 [y0 [y1 [s [Hx0 [Hx1 [Hy0 [Hy1 [Hs [Es Eb]]]]]]]]]]].
  assert (Hx : forall m, In m (map fst (positions ms)) -> m == px).
  { intros m Hm. apply in_map_iff in Hm. destruct Hm as [p [<- Hp]].
    now apply Hall. }
  assert (Hy : forall m, In m (map snd (positions ms)) -> m == py).
  { intros m Hm. apply in_map_iff in Hm. destruct Hm as [p [<- Hp]].
    now apply Hall. }
  pose proof (Hx _ (proj1 Hx0)) as Ex0. pose proof (Hx _ (proj1 Hx1)) as Ex1.
  pose proof (Hy _ (proj1 Hy0)) as Ey0. pose proof (Hy _ (proj1 Hy1)) as Ey1.
  span_facts_in Hs.
  assert (Hs0 : s == 0) by (destruct Hsc; lra).
  subst b. unfold initialLayout, cx, cy, span.
  cbn [Layout.xaxis Layout.yaxis Axis.range].
  rewrite Eb. js_arith. rewrite Es. js_arith.
  unfold range_eq, xeq. cbn [fst snd].
  repeat split; lra.
Qed.

Lemma C8_witness :
  still_series <> [] /\
  range_eq (xRange (computeBounds (inject still_series))) (1, 1) /\
  range_eq (yRange (computeBounds (inject still_series))) (2, 2).
Proof.
  assert (Hne : still_series <> []) by discriminate.
  split; [exact Hne|].
  assert (Hall : forall p, In p (positions still_series) -> fst p == 1 /\ snd p == 2).
  { intros p Hp. simpl in Hp.
    repeat (destruct Hp as [<-|Hp]; [split; reflexivity|]). destruct Hp. }
  destruct (C8_coincident_positions_collapse_the_windows still_series 1 2 Hne Hall)
    as [_ [_ [Hx [Hy _]]]].
  split; assumption.
Defined.

(** On a motion series whose positions all coincide the code yields a
    padded window and a display window of zero width and zero height:
    none of the four ranges has its lower end below its upper end. *)
Lemma C8_counterexample :
  ~ proper_range (xRange (computeBounds (inject still_series))) /\
  ~ proper_range (yRange (computeBounds (inject still_series))) /\
  ~ proper_range (Axis.range (Layout.xaxis
       (initialLayout (computeBounds (inject still_series))))) /\
  ~ proper_range (Axis.range (Layout.yaxis
       (initialLayout (computeBounds (inject still_series))))).
Proof.
  repeat split; intro H; vm_compute in H; discriminate H.
Qed.

(** The same collapse in binary64. *)
Lemma still_series_float_collapses :
  xRange (computeBounds (of_series still_series_float)) = (1, 1)%float /\
  yRange (computeBounds (of_series still_series_float)) = (2, 2)%float /\
  Axis.range (Layout.xaxis (initialLayout (computeBounds (of_series still_series_float))))
    = (1, 1)%float /\
  Axis.range (Layout.yaxis (initialLayout (computeBounds (of_series still_series_float))))
    = (2, 2)%float.
Proof. vm_compute. auto. Qed.




(** C7 (as the code has it): on a response whose [A] array is empty
    nothing is rejected up front.  The frame loop runs and leaves the
    empty frame sequence; reading [frames[0].data] then throws a
    [TypeError], so the run ends there and no call into the render target
    is made. *)
Theorem C7_empty_series_aborts_at_the_first_frame {num : Type}
  {JN : JsNumber num} (data : Response.t num) (settlements : list settlement) :
  Response.A data = [] ->
  buildFrames data = Ok [] /\
  prepare data = Throw TypeError /\
  runAnimation data settlements = [Uncaught TypeError] /\
  forall ev, In ev (runAnimation data settlements) -> is_render_call ev = false.
Proof.
  intro HA.
  assert (E : buildFrames data = Ok [])
    by (unfold buildFrames, frameLoop; rewrite HA; reflexivity).
  assert (P : prepare data = Throw TypeError)
    by (unfold prepare; rewrite E; reflexivity).
  assert (R : runAnimation data settlements = [Uncaught TypeError])
    by (unfold runAnimation; rewrite P; reflexivity).
  repeat split; try assumption.
  intros ev Hev. rewrite R in Hev. destruct Hev as [<-|[]]. reflexivity.
Qed.

Lemma C7_witness :
  Response.A (inject empty_series) = [] /\
  runAnimation (inject empty_series) [Resolved; Resolved] = [Uncaught TypeError].
Proof.
  split; [reflexivity|].
  exact (proj1 (proj2 (proj2
    (C7_empty_series_aborts_at_the_first_frame
       (inject empty_series) [Resolved; Resolved] eq_refl)))).
Defined.

(** Given the empty motion series, frame sequence assembly is not
    preceded by a rejection: it runs and returns an empty frame sequence. *)
Lemma C7_counterexample :
  exists frames,
    buildFrames (inject empty_series) = Ok frames /\ List.length frames = 0%nat.
Proof. exists []. split; reflexivity. Qed.

(* ------------------------------------------------------------------ *)
(** ** Playback *)

Lemma combine_seq_nth {T : Type} (l : list T) :
  forall s i v, nth_error l i = Some v ->
    nth_error (combine (seq s (List.length l)) l) i = Some ((s + i)%nat, v).
Proof.
  induction l as [|h l IH]; intros s [|i] v H; try discriminate H.
  - simpl in H. injection H as <-. simpl. now rewrite Nat.add_0_r.
  - simpl. rewrite (IH (S s) i v H). f_equal. f_equal. lia.
Qed.

Lemma animateLoop_resolved {num : Type} (frames : list (Frame.t num)) (n : nat) :
  animateLoop frames (repeat Resolved n) =
    List.concat (repeat [Call (Animate "plot" frames animateOpts); Settle Resolved] n)
    ++ [Call (Animate "plot" frames animateOpts)].
Proof.
  induction n as [|n IH]; simpl; [reflexivity|]. now rewrite IH.
Qed.

(** A rejected promise has no handler: the loop is not re-entered. *)
Lemma animateLoop_rejected {num : Type} (frames : list (Frame.t num))
  (n : nat) (rest : list settlement) :
  animateLoop frames (repeat Resolved n ++ Rejected :: rest) =
    List.concat (repeat [Call (Animate "plot" frames animateOpts); Settle Resolved] n)
    ++ [Call (Animate "plot" frames animateOpts); Settle Rejected].
Proof.
  induction n as [|n IH]; simpl; [reflexivity|]. now rewrite IH.
Qed.

(** C9: every play request hands the render target the whole frame
    sequence with a frame duration of 40, redraw forced and a transition
    of 0, under which a pass shows the frames in index order from the
    first to the last; after [n] completed passes exactly [n + 1] requests
    have been made, each new one right after the completion of the one
    before, so that no two are ever in flight together and every
    completion is followed by a restart. *)
Theorem C9_playback_loop {num : Type} (frames : list (Frame.t num)) :
  (forall settlements ev,
     In ev (animateLoop frames settlements) -> is_animate ev = true ->
     ev = Call (Animate "plot" frames
                  (AnimOpts.mk (AnimFrame.mk 40 true) (Transition.mk 0) "afterall"))) /\
  (List.length (play_pass frames animateOpts) = List.length frames /\
   forall i f, nth_error frames i = Some f ->
     nth_error (play_pass frames animateOpts) i = Some (Show i f 40 true 0)) /\
  (forall n,
     animateLoop frames (repeat Resolved n) =
       List.concat (repeat [Call (Animate "plot" frames animateOpts); Settle Resolved] n)
       ++ [Call (Animate "plot" frames animateOpts)]) /\
  (forall n,
     List.length (filter is_animate (animateLoop frames (repeat Resolved n))) = S n) /\
  (forall settlements, no_overlap false (animateLoop frames settlements) = true).
Proof.
  split; [|split; [|split; [|split]]].
  - induction settlements as [|[|] rest IH]; intros ev H A; simpl in H.
    + destruct H as [<-|[]]. reflexivity.
    + destruct H as [<-|[<-|H]]; [reflexivity|discriminate A|now apply IH].
    + destruct H as [<-|[<-|[]]]; [reflexivity|discriminate A].
  - unfold play_pass. split.
    + rewrite length_map, length_combine, length_seq. lia.
    + intros i f H. rewrite nth_error_map, (combine_seq_nth frames 0 i f H).
      reflexivity.
  - apply animateLoop_resolved.
  - intro n. rewrite animateLoop_resolved.
    induction n as [|n IH]; [reflexivity|].
    simpl. simpl in IH. now rewrite IH.
  - induction settlements as [|[|] rest IH]; simpl; auto.
Qed.

Lemma C9_witness :
  exists frames,
    buildFrames (of_series example_series) = Ok frames /\
    List.length (play_pass frames animateOpts) = 2%nat /\
    List.length (filter is_animate (animateLoop frames [Resolved; Resolved])) = 3%nat /\
    no_overlap false (animateLoop frames [Resolved; Rejected]) = true.
Proof.
  destruct (buildFrames_of_series example_series) as [frames [E [L _]]].
  exists frames. split; [exact E|].
  destruct (C9_playback_loop frames) as [_ [[P _] [_ [N O]]]].
  split; [rewrite P; exact L|].
  split; [exact (N 2%nat)|exact (O [Resolved; Rejected])].
Defined.

(* ------------------------------------------------------------------ *)
(** ** Responses whose arrays differ in length *)

Section Ragged.

Context {num : Type}.

#[local] Open Scope nat_scope.

Implicit Types (data : Response.t num).

Lemma at_index_Ok_iff {T : Type} (arr : list T) (i : nat) :
  (exists v, at_index arr i = Ok v) <-> i < List.length arr.
Proof.
  unfold at_index. split.
  - intros [v H]. apply nth_error_Some.
    destruct (nth_error arr i); [discriminate|discriminate H].
  - intro H. apply nth_error_Some in H.
    destruct (nth_error arr i) as [v|]; [now exists v|congruence].
Qed.

Lemma buildFrame_Ok_iff data (i : nat) :
  (exists f, buildFrame data i = Ok f) <->
  i < List.length (Response.A data) /\ i < List.length (Response.B data) /\
  i < List.length (Response.C data) /\ i < List.length (Response.D data).
Proof.
  rewrite <- !at_index_Ok_iff. unfold buildFrame. split.
  - intros [f H].
    destruct (at_index (Response.A data) i) as [a|]; [|discriminate H].
    destruct (at_index (Response.B data) i) as [b|]; [|discriminate H].
    destruct (at_index (Response.C data) i) as [c|]; [|discriminate H].
    destruct (at_index (Response.D data) i) as [d|]; [|discriminate H].
    repeat split; eexists; reflexivity.
  - intros [[a ->] [[b ->] [[c ->] [d ->]]]]. eexists. reflexivity.
Qed.

(** The loop completes exactly when [B], [C] and [D] reach the length of
    [A]. *)
Lemma buildFrames_Ok_iff data :
  (exists frames, buildFrames data = Ok frames) <->
  List.length (Response.A data) <= List.length (Response.B data) /\
  List.length (Response.A data) <= List.length (Response.C data) /\
  List.length (Response.A data) <= List.length (Response.D data).
Proof.
  unfold buildFrames, frameLoop. split.
  - intros [frames E]. destruct (frameLoop_seq data _ frames E) as [L N].
    destruct (List.length (Response.A data)) as [|n] eqn:LA; [lia|].
    destruct (nth_error frames n) as [f|] eqn:F.
    + apply N in F.
      destruct (proj1 (buildFrame_Ok_iff data n) (ex_intro _ f F)). lia.
    + apply nth_error_None in F. lia.
  - intros [HB [HC HD]]. apply frameLoop_total. intros i Hi.
    apply buildFrame_Ok_iff. lia.
Qed.

Lemma fold_pushFrame_ext data data' (idxs : list nat) :
  (forall i, In i idxs -> buildFrame data i = buildFrame data' i) ->
  forall acc, fold_left (pushFrame data) idxs acc = fold_left (pushFrame data') idxs acc.
Proof.
  induction idxs as [|i idxs IH]; intros H acc; [reflexivity|].
  cbn [fold_left]. rewrite IH by (intros j Hj; apply H; now right).
  f_equal. unfold pushFrame. now rewrite (H i) by now left.
Qed.

Lemma at_index_firstn {T : Type} (arr : list T) (n i : nat) :
  i < n -> at_index (firstn n arr) i = at_index arr i.
Proof.
  intro H. unfold at_index. now rewrite nth_error_firstn, (proj2 (Nat.ltb_lt i n) H).
Qed.

End Ragged.

(** X1: a run ends in an uncaught [TypeError], before any call into the
    render target, exactly when [data.A] is empty or one of [data.B],
    [data.C], [data.D] is shorter than [data.A]; in every other case the
    first thing that happens is the [Plotly.newPlot] call. *)
Theorem X1_run_throws_iff_response_is_empty_or_ragged {num : Type}
  {JN : JsNumber num} (data : Response.t num) (settlements : list settlement) :
  (runAnimation data settlements = [Uncaught TypeError] <->
   (Response.A data = [] \/
    (List.length (Response.B data) < List.length (Response.A data))%nat \/
    (List.length (Response.C data) < List.length (Response.A data))%nat \/
    (List.length (Response.D data) < List.length (Response.A data))%nat)) /\
  (runAnimation data settlements = [Uncaught TypeError] \/
   exists traces layout rest,
     runAnimation data settlements = Call (NewPlot "plot" traces layout) :: rest).
Proof.
  pose proof (buildFrames_Ok_iff data) as HOk.
  unfold runAnimation, prepare.
  destruct (buildFrames data) as [frames|e] eqn:E; cbn [bind].
  - destruct (proj1 HOk (ex_intro _ frames eq_refl)) as [HB [HC HD]].
    unfold buildFrames, frameLoop in E.
    destruct (frameLoop_seq data _ frames E) as [L _].
    destruct frames as [|first frames]; cbn [at_index nth_error bind].
    + split; [|now left]. split; [intros _|reflexivity].
      left. simpl in L. destruct (Response.A data); [reflexivity|discriminate L].
    + split; [|right; do 3 eexists; reflexivity].
      split; [discriminate|].
      intros [HA|H]; [rewrite HA in L; discriminate L|lia].
  - destruct e. split; [|now left]. split; [intros _|reflexivity].
    destruct (Nat.le_gt_cases (List.length (Response.A data)) (List.length (Response.B data)));
    destruct (Nat.le_gt_cases (List.length (Response.A data)) (List.length (Response.C data)));
    destruct (Nat.le_gt_cases (List.length (Response.A data)) (List.length (Response.D data)));
      auto.
    destruct (proj2 HOk) as [frames F]; [auto|discriminate F].
Qed.

Lemma X1_witness :
  runAnimation (fin_response short_C_response) [Resolved; Resolved]
    = [Uncaught TypeError] /\
  exists traces layout rest,
    runAnimation (fin_response long_D_response) [Resolved]
      = Call (NewPlot "plot" traces layout) :: rest.
Proof.
  split.
  - apply (proj1 (X1_run_throws_iff_response_is_empty_or_ragged
                    (fin_response short_C_response) [Resolved; Resolved])).
    right. right. left. simpl. lia.
  - destruct (proj2 (X1_run_throws_iff_response_is_empty_or_ragged
                       (fin_response long_D_response) [Resolved])) as [H|H].
    + discriminate H.
    + exact H.
Defined.

(** X2: the frames are built from the first [data.A.length] entries of
    each array and from nothing else: cutting [B], [C] and [D] to the
    length of [A] changes neither the frame sequence nor whether the loop
    throws. *)
Theorem X2_frames_ignore_entries_beyond_the_length_of_A {num : Type}
  (data : Response.t num) :
  buildFrames (truncate data) = buildFrames data.
Proof.
  unfold buildFrames, frameLoop, truncate. cbn [Response.A].
  apply fold_pushFrame_ext. intros i Hi. apply in_seq in Hi.
  unfold buildFrame, trailTrace. cbn [Response.A Response.B Response.C Response.D].
  rewrite !at_index_firstn by lia.
  rewrite firstn_firstn, Nat.min_l by lia. reflexivity.
Qed.

(** X3: every frame holds exactly three traces, and the second one, the
    joint labels, has the four points A, B, C, D of its pose, not closed
    back to A, with the letters "A", "B", "C", "D" in the same order, so
    that each letter sits on its own joint. *)
Theorem X3_labels_sit_on_their_joints {num : Type} (ms : list (Pose.t num)) :
  exists frames,
    buildFrames (of_series ms) = Ok frames /\
    forall i pose, nth_error ms i = Some pose ->
      exists f labels letters,
        nth_error frames i = Some f /\
        List.length (Frame.data f) = 3%nat /\
        nth_error (Frame.data f) 1 = Some labels /\
        Trace.text labels = Some letters /\
        Trace.mode labels = "text"%string /\
        letters = ["A"; "B"; "C"; "D"]%string /\
        Trace.points labels = [Pose.A pose; Pose.B pose; Pose.C pose; Pose.D pose].
Proof.
  destruct (buildFrames_of_series ms) as [frames [E [L N]]].
  exists frames. split; [exact E|].
  intros i pose P. do 3 eexists.
  split; [exact (N i pose P)|].
  destruct pose as [[ax ay] [bx by_] [cx_ cy_] [dx dy]].
  repeat split; reflexivity.
Qed.

Lemma X3_witness :
  exists frames labels,
    buildFrames (of_series example_series) = Ok frames /\
    option_map (fun f => nth_error (Frame.data f) 1) (nth_error frames 1)
      = Some (Some labels) /\
    Trace.points labels = [(0, 0); (0, 1); (-1, 1); (-1, 0)].
Proof.
  destruct (X3_labels_sit_on_their_joints example_series) as [frames [E N]].
  destruct (N 1%nat (Pose.mk (0, 0) (0, 1) (-1, 1) (-1, 0)) eq_refl)
    as [f [labels [letters [F [_ [D [_ [_ [_ P]]]]]]]]].
  exists frames, labels. split; [exact E|].
  rewrite F. cbn [option_map]. rewrite D. split; [reflexivity|exact P].
Defined.

Lemma trailTrace_app {num : Type} (ms more : list (Pose.t num)) (i : nat) :
  (i < List.length ms)%nat ->
  trailTrace (of_series (ms ++ more)) i = trailTrace (of_series ms) i.
Proof.
  intro H. unfold trailTrace, of_series. cbn [Response.C].
  rewrite map_app, firstn_app, length_map.
  replace (i + 1 - List.length ms)%nat with 0%nat by lia.
  cbn [firstn]. now rewrite app_nil_r.
Qed.

(** X4: a frame depends on the poses up to its own step only.  The
    frames built from a motion series are the first frames of what is
    built from any longer series that starts with it. *)
Theorem X4_frames_of_a_prefix_are_a_prefix_of_the_frames {num : Type}
  (ms more : list (Pose.t num)) :
  exists frames later,
    buildFrames (of_series ms) = Ok frames /\
    buildFrames (of_series (ms ++ more)) = Ok (frames ++ later) /\
    List.length later = List.length more.
Proof.
  destruct (buildFrames_of_series ms) as [frames [E [L N]]].
  destruct (buildFrames_of_series (ms ++ more)) as [all [E' [L' N']]].
  exists frames, (skipn (List.length ms) all).
  split; [exact E|].
  assert (F : firstn (List.length ms) all = frames).
  { apply nth_error_ext. intro i.
    rewrite nth_error_firstn.
    destruct (Nat.ltb_spec i (List.length ms)) as [Hi|Hi].
    - destruct (nth_error ms i) as [pose|] eqn:P;
        [|apply nth_error_None in P; lia].
      rewrite (N i pose P).
      rewrite (N' i pose) by (rewrite nth_error_app1; assumption).
      now rewrite trailTrace_app.
    - symmetry. apply nth_error_None. lia. }
  split.
  - rewrite <- F at 1. now rewrite firstn_skipn.
  - rewrite length_skipn, L', length_app. lia.
Qed.

(** X5: the trail of the last frame is the whole path of joint C, and
    the trail of every frame is an initial stretch of it: the x array of
    frame [i]'s trail is the first [i + 1] entries of the last trail's x
    array, and the same holds of the y arrays. *)
Theorem X5_last_trail_is_the_whole_path_of_C {num : Type}
  (ms : list (Pose.t num)) :
  ms <> [] ->
  exists frames final envelope,
    buildFrames (of_series ms) = Ok frames /\
    nth_error frames (List.length ms - 1) = Some final /\
    nth_error (Frame.data final) 2 = Some envelope /\
    Trace.x envelope = map (fun p => fst (Pose.C p)) ms /\
    Trace.y envelope = map (fun p => snd (Pose.C p)) ms /\
    Trace.points envelope = map (@Pose.C num) ms /\
    forall i f trail,
      nth_error frames i = Some f ->
      nth_error (Frame.data f) 2 = Some trail ->
      Trace.x trail = firstn (i + 1) (Trace.x envelope) /\
      Trace.y trail = firstn (i + 1) (Trace.y envelope) /\
      List.length (Trace.x trail) = (i + 1)%nat /\
      List.length (Trace.y trail) = (i + 1)%nat.
Proof.
  intro Hne.
  destruct (buildFrames_of_series ms) as [frames [E [L N]]].
  assert (Hlen : (0 < List.length ms)%nat)
    by (destruct ms; [congruence|simpl; lia]).
  destruct (nth_error ms (List.length ms - 1)) as [pose|] eqn:P;
    [|apply nth_error_None in P; lia].
  do 3 eexists. split; [exact E|].
  split; [exact (N _ pose P)|]. split; [reflexivity|].
  rewrite trail_x, trail_y, trail_points.
  replace (List.length ms - 1 + 1)%nat with (List.length ms) by lia.
  rewrite firstn_all. do 3 (split; [reflexivity|]).
  intros i f trail F T.
  destruct (nth_error ms i) as [q|] eqn:Q.
  - rewrite (N i q Q) in F. injection F as <-.
    cbn [Frame.data nth_error] in T. injection T as <-.
    assert (Hi : (i < List.length ms)%nat) by (apply nth_error_Some; congruence).
    rewrite trail_x, trail_y, !firstn_map, !length_map, length_firstn.
    repeat split; try reflexivity; lia.
  - apply nth_error_None in Q.
    assert ((i < List.length frames)%nat) by (apply nth_error_Some; congruence).
    lia.
Qed.

Lemma X5_witness :
  example_series <> [] /\
  exists frames envelope,
    buildFrames (of_series example_series) = Ok frames /\
    option_map (fun f => nth_error (Frame.data f) 2) (nth_error frames 1)
      = Some (Some envelope) /\
    Trace.x envelope = [1; -1] /\
    Trace.y envelope = [1; 1].
Proof.
  assert (Hne : example_series <> []) by discriminate.
  split; [exact Hne|].
  destruct (X5_last_trail_is_the_whole_path_of_C example_series Hne)
    as [frames [final [envelope [E [F [D [X [Y _]]]]]]]].
  exists frames, envelope. split; [exact E|].
  change (nth_error frames 1 = Some final) in F.
  rewrite F. cbn [option_map]. rewrite D.
  split; [reflexivity|]. split; assumption.
Defined.

(* ------------------------------------------------------------------ *)
(** ** The run as a whole *)

Lemma animateLoop_no_newPlot {num : Type} (frames : list (Frame.t num))
  (settlements : list settlement) :
  filter is_newPlot (animateLoop frames settlements) = [].
Proof.
  induction settlements as [|[|] rest IH]; simpl; auto.
Qed.

(** X6: playback goes on only as long as the promises resolve.  The
    number of play requests in a run is one more than the number of
    promises that resolve before the first rejection; a rejection is the
    last thing that happens, whatever the render target would answer
    afterwards. *)
Theorem X6_a_rejected_pass_ends_playback {num : Type}
  (frames : list (Frame.t num)) :
  (forall settlements,
     List.length (filter is_animate (animateLoop frames settlements)) =
       S (leading_resolved settlements)) /\
  (forall n rest,
     animateLoop frames (repeat Resolved n ++ Rejected :: rest) =
       animateLoop frames (repeat Resolved n) ++ [Settle Rejected]) /\
  (forall n rest,
     List.length (filter is_animate
        (animateLoop frames (repeat Resolved n ++ Rejected :: rest))) = S n).
Proof.
  assert (A : forall settlements,
     List.length (filter is_animate (animateLoop frames settlements)) =
       S (leading_resolved settlements)).
  { induction settlements as [|[|] rest IH]; simpl; auto. }
  assert (B : forall n rest,
     animateLoop frames (repeat Resolved n ++ Rejected :: rest) =
       animateLoop frames (repeat Resolved n) ++ [Settle Rejected]).
  { induction n as [|n IH]; intro rest; simpl; [reflexivity|].
    now rewrite IH. }
  split; [exact A|]. split; [exact B|].
  intros n rest. rewrite A.
  f_equal. induction n as [|n IH]; simpl; auto.
Qed.

(** X7: the static plot is drawn once, first, and shows pose 0.  In a
    run on a non-empty motion series the first event is the
    [Plotly.newPlot] call, its traces are the linkage and the labels of
    the first pose and a trail whose x and y arrays hold the one point C
    of that pose, and no restart of the playback loop ever plots again. *)
Theorem X7_initial_plot_is_drawn_once_and_shows_the_first_pose {num : Type}
  {JN : JsNumber num} (pose : Pose.t num) (ms : list (Pose.t num))
  (settlements : list settlement) :
  let first_plot :=
    Call (NewPlot "plot"
            [linkageTrace (Pose.A pose) (Pose.B pose) (Pose.C pose) (Pose.D pose);
             labelTrace (Pose.A pose) (Pose.B pose) (Pose.C pose) (Pose.D pose);
             Trace.mk [fst (Pose.C pose)] [snd (Pose.C pose)]
                      "lines" (Some (Line.mk 2 (Some "dot"%string))) None
                      None None None (Some "Workspace"%string)]
            (initialLayout (computeBounds (of_series (pose :: ms))))) in
  exists frames,
    buildFrames (of_series (pose :: ms)) = Ok frames /\
    List.length frames = S (List.length ms) /\
    runAnimation (of_series (pose :: ms)) settlements =
      first_plot :: animateLoop frames settlements /\
    filter is_newPlot (runAnimation (of_series (pose :: ms)) settlements) =
      [first_plot].
Proof.
  intro first_plot.
  destruct (buildFrames_of_series (pose :: ms)) as [frames [E [L N]]].
  specialize (N 0%nat pose eq_refl).
  exists frames. split; [exact E|]. split; [exact L|].
  assert (R : runAnimation (of_series (pose :: ms)) settlements =
                first_plot :: animateLoop frames settlements).
  { unfold runAnimation, prepare. rewrite E. cbn [bind].
    unfold at_index. rewrite N. reflexivity. }
  split; [exact R|].
  rewrite R. subst first_plot. cbn [filter is_newPlot].
  now rewrite animateLoop_no_newPlot.
Qed.

(* ------------------------------------------------------------------ *)
(** ** More on the windows *)

(** The display ranges, once the bounds are known. *)
Lemma layout_of_bounds (b : bounds) (x0 x1 y0 y1 s : Q) (pad : xnum)
  (rx ry : xnum * xnum) :
  b = mkBounds (Fin x0) (Fin x1) (Fin y0) (Fin y1) pad rx ry ->
  Math_max [Fin (x1 - x0); Fin (y1 - y0)] = Fin s ->
  Axis.range (Layout.xaxis (initialLayout b)) =
    (Fin (0.5 * (x0 + x1) - s * 0.6), Fin (0.5 * (x0 + x1) + s * 0.6)) /\
  Axis.range (Layout.yaxis (initialLayout b)) =
    (Fin (0.5 * (y0 + y1) - s * 0.6), Fin (0.5 * (y0 + y1) + s * 0.6)).
Proof.
  intros -> Es. unfold initialLayout, cx, cy, span.
  cbn [Layout.xaxis Layout.yaxis Axis.range]. js_arith. rewrite Es. js_arith.
  split; reflexivity.
Qed.

Lemma pools_fin_response (d : Response.t Q) :
  pools (fin_response d) =
    (map Fin (map fst (response_positions d)),
     map Fin (map snd (response_positions d))).
Proof.
  rewrite pools_spec. unfold fin_response, response_positions.
  cbn [Response.A Response.B Response.C Response.D].
  rewrite !map_app, !map_map. reflexivity.
Qed.

(** The bounds of any response that holds at least one position. *)
Lemma bounds_fin_response (d : Response.t Q) :
  response_positions d <> [] ->
  exists x0 x1 y0 y1 s,
    is_min x0 (map fst (response_positions d)) /\
    is_max x1 (map fst (response_positions d)) /\
    is_min y0 (map snd (response_positions d)) /\
    is_max y1 (map snd (response_positions d)) /\
    s == Qmax (x1 - x0) (y1 - y0) /\
    Math_max [Fin (x1 - x0); Fin (y1 - y0)] = Fin s /\
    computeBounds (fin_response d) =
      mkBounds (Fin x0) (Fin x1) (Fin y0) (Fin y1) (Fin (0.2 * s))
               (Fin (x0 - 0.2 * s), Fin (x1 + 0.2 * s))
               (Fin (y0 - 0.2 * s), Fin (y1 + 0.2 * s)).
Proof.
  intro Hne. pose proof (pools_fin_response d) as P.
  destruct (response_positions d) as [|p ps]; [congruence|].
  cbn [map] in *.
  destruct (Math_min_Fin (fst p) (map fst ps)) as [x0 [Ex0 Hx0]].
  destruct (Math_max_Fin (fst p) (map fst ps)) as [x1 [Ex1 Hx1]].
  destruct (Math_min_Fin (snd p) (map snd ps)) as [y0 [Ey0 Hy0]].
  destruct (Math_max_Fin (snd p) (map snd ps)) as [y1 [Ey1 Hy1]].
  destruct (Math_max_pair (x1 - x0) (y1 - y0)) as [s [Es Hs]].
  exists x0, x1, y0, y1, s.
  repeat (split; [assumption|]).
  unfold computeBounds. rewrite P. cbn [fst snd map] in *.
  rewrite Ex0, Ex1, Ey0, Ey1. js_arith. rewrite Es. js_arith. reflexivity.
Qed.

(** X8: both windows cover every position the response holds, also the
    positions of [B], [C] and [D] past the length of [A], which no frame
    ever draws. *)
Theorem X8_windows_cover_every_position_of_the_response (d : Response.t Q)
  (p : point Q) :
  In p (response_positions d) ->
  let b := computeBounds (fin_response d) in
  in_range (xRange b) (fst p) /\
  in_range (yRange b) (snd p) /\
  in_range (Axis.range (Layout.xaxis (initialLayout b))) (fst p) /\
  in_range (Axis.range (Layout.yaxis (initialLayout b))) (snd p).
Proof.
  intros Hp b.
  assert (Hne : response_positions d <> []) by (intro E; rewrite E in Hp; destruct Hp).
  destruct (bounds_fin_response d Hne)
    as [x0 [x1 [y0 [y1 [s [Hx0 [Hx1 [Hy0 [Hy1 [Hs [Es Eb]]]]]]]]]]].
  assert (Hx : In (fst p) (map fst (response_positions d))) by now apply in_map.
  assert (Hy : In (snd p) (map snd (response_positions d))) by now apply in_map.
  pose proof (proj2 Hx0 _ Hx). pose proof (proj2 Hx1 _ Hx).
  pose proof (proj2 Hy0 _ Hy). pose proof (proj2 Hy1 _ Hy).
  destruct (span_facts _ _ _ Hs) as [Hsa [Hsb _]].
  subst b.
  destruct (layout_of_bounds _ _ _ _ _ _ _ _ _ Eb Es) as [-> ->].
  rewrite Eb. unfold in_range, xle. js_arith. repeat split; lra.
Qed.

Lemma X8_witness :
  In (7, -3) (response_positions long_D_response) /\
  in_range (xRange (computeBounds (fin_response long_D_response))) 7 /\
  in_range (Axis.range (Layout.yaxis
              (initialLayout (computeBounds (fin_response long_D_response))))) (-3).
Proof.
  assert (H : In (7, -3) (response_positions long_D_response))
    by (simpl; auto 10).
  split; [exact H|].
  destruct (X8_windows_cover_every_position_of_the_response long_D_response (7, -3) H)
    as [Hx [_ [_ Hy]]].
  split; assumption.
Defined.

(** X9: the windows depend on which positions occur, not on when or at
    which joint: two motion series with the same positions get the same
    padding, the same padded window and the same display window. *)
Theorem X9_windows_depend_on_the_set_of_positions_only (ms ms' : list (Pose.t Q)) :
  ms <> [] ->
  (forall p, In p (positions ms) <-> In p (positions ms')) ->
  let b := computeBounds (inject ms) in
  let b' := computeBounds (inject ms') in
  xeq (padding b) (padding b') /\
  same_range (xRange b) (xRange b') /\
  same_range (yRange b) (yRange b') /\
  same_range (Axis.range (Layout.xaxis (initialLayout b)))
             (Axis.range (Layout.xaxis (initialLayout b'))) /\
  same_range (Axis.range (Layout.yaxis (initialLayout b)))
             (Axis.range (Layout.yaxis (initialLayout b'))).
Proof.
  intros Hne Hsame b b'.
  assert (Hne' : ms' <> []).
  { destruct (positions_nonempty ms Hne) as [p Hp]. apply Hsame in Hp.
    intro E. rewrite E in Hp. destruct Hp. }
  assert (HX : forall q, In q (map fst (positions ms)) <-> In q (map fst (positions ms'))).
  { intro q. rewrite !in_map_iff.
    split; intros [p [E I]]; exists p; (split; [exact E|now apply Hsame]). }
  assert (HY : forall q, In q (map snd (positions ms)) <-> In q (map snd (positions ms'))).
  { intro q. rewrite !in_map_iff.
    split; intros [p [E I]]; exists p; (split; [exact E|now apply Hsame]). }
  destruct (bounds_inject ms Hne)
    as [x0 [x1 [y0 [y1 [s [Hx0 [Hx1 [Hy0 [Hy1 [Hs [Es Eb]]]]]]]]]]].
  destruct (bounds_inject ms' Hne')
    as [x0' [x1' [y0' [y1' [s' [Hx0' [Hx1' [Hy0' [Hy1' [Hs' [Es' Eb']]]]]]]]]]].
  pose proof (is_min_unique _ _ _ (is_min_members _ _ _ HX Hx0) Hx0') as Ex0.
  pose proof (is_max_unique _ _ _ (is_max_members _ _ _ HX Hx1) Hx1') as Ex1.
  pose proof (is_min_unique _ _ _ (is_min_members _ _ _ HY Hy0) Hy0') as Ey0.
  pose proof (is_max_unique _ _ _ (is_max_members _ _ _ HY Hy1) Hy1') as Ey1.
  destruct (span_facts _ _ _ Hs) as [Hsa [Hsb Hsc]].
  destruct (span_facts _ _ _ Hs') as [Hsa' [Hsb' Hsc']].
  assert (Ess : s == s') by (destruct Hsc, Hsc'; lra).
  subst b b'.
  destruct (layout_of_bounds _ _ _ _ _ _ _ _ _ Eb Es) as [-> ->].
  destruct (layout_of_bounds _ _ _ _ _ _ _ _ _ Eb' Es') as [-> ->].
  rewrite Eb, Eb'. unfold same_range, xeq. js_arith. repeat split; lra.
Qed.

Lemma X9_witness :
  example_series <> [] /\
  same_range (xRange (computeBounds (inject example_series)))
             (xRange (computeBounds (inject (rev example_series)))) /\
  same_range (Axis.range (Layout.yaxis (initialLayout (computeBounds (inject example_series)))))
             (Axis.range (Layout.yaxis
                (initialLayout (computeBounds (inject (rev example_series)))))).
Proof.
  assert (Hne : example_series <> []) by discriminate.
  split; [exact Hne|].
  assert (Hsame : forall p, In p (positions example_series) <->
                            In p (positions (rev example_series))).
  { intro p. unfold positions. rewrite !in_flat_map.
    split; intros [pose [I J]]; exists pose; (split; [|exact J]);
      [apply in_rev in I|apply in_rev]; exact I. }
  destruct (X9_windows_depend_on_the_set_of_positions_only
              example_series (rev example_series) Hne Hsame)
    as [_ [Hx [_ [_ Hy]]]].
  split; assumption.
Defined.

Lemma positions_shift (dx dy : Q) (ms : list (Pose.t Q)) :
  positions (shift dx dy ms) = map (shift_point dx dy) (positions ms).
Proof.
  unfold positions, shift. induction ms as [|pose ms IH]; [reflexivity|].
  cbn [map flat_map]. rewrite IH, map_app. reflexivity.
Qed.

Lemma is_min_shift (m d : Q) (f : point Q -> Q) (g : point Q -> point Q)
  (ps : list (point Q)) :
  (forall p, f (g p) = f p + d) ->
  is_min m (map f ps) -> is_min (m + d) (map f (map g ps)).
Proof.
  intros Hf [I L]. split.
  - apply in_map_iff in I. destruct I as [p [<- Hp]].
    rewrite <- Hf. apply in_map. now apply in_map.
  - intros q Hq. rewrite map_map in Hq. apply in_map_iff in Hq.
    destruct Hq as [p [<- Hp]]. rewrite Hf.
    assert (m <= f p) by (apply L; now apply in_map). lra.
Qed.

Lemma is_max_shift (m d : Q) (f : point Q -> Q) (g : point Q -> point Q)
  (ps : list (point Q)) :
  (forall p, f (g p) = f p + d) ->
  is_max m (map f ps) -> is_max (m + d) (map f (map g ps)).
Proof.
  intros Hf [I L]. split.
  - apply in_map_iff in I. destruct I as [p [<- Hp]].
    rewrite <- Hf. apply in_map. now apply in_map.
  - intros q Hq. rewrite map_map in Hq. apply in_map_iff in Hq.
    destruct Hq as [p [<- Hp]]. rewrite Hf.
    assert (f p <= m) by (apply L; now apply in_map). lra.
Qed.

(** X10: moving the whole motion by [(dx, dy)] moves both windows by
    [(dx, dy)] and leaves the padding unchanged. *)
Theorem X10_windows_follow_a_translation (dx dy : Q) (ms : list (Pose.t Q)) :
  ms <> [] ->
  let b := computeBounds (inject ms) in
  let b' := computeBounds (inject (shift dx dy ms)) in
  xeq (padding b') (padding b) /\
  same_range (xRange b') (shift_range dx (xRange b)) /\
  same_range (yRange b') (shift_range dy (yRange b)) /\
  same_range (Axis.range (Layout.xaxis (initialLayout b')))
             (shift_range dx (Axis.range (Layout.xaxis (initialLayout b)))) /\
  same_range (Axis.range (Layout.yaxis (initialLayout b')))
             (shift_range dy (Axis.range (Layout.yaxis (initialLayout b)))).
Proof.
  intros Hne b b'.
  assert (Hne' : shift dx dy ms <> []) by (destruct ms; [congruence|discriminate]).
  destruct (bounds_inject ms Hne)
    as [x0 [x1 [y0 [y1 [s [Hx0 [Hx1 [Hy0 [Hy1 [Hs [Es Eb]]]]]]]]]]].
  destruct (bounds_inject _ Hne')
    as [x0' [x1' [y0' [y1' [s' [Hx0' [Hx1' [Hy0' [Hy1' [Hs' [Es' Eb']]]]]]]]]]].
  rewrite positions_shift in Hx0', Hx1', Hy0', Hy1'.
  pose proof (is_min_unique _ _ _
    (is_min_shift x0 dx fst (shift_point dx dy) _ (fun p => eq_refl) Hx0) Hx0') as Ex0.
  pose proof (is_max_unique _ _ _
    (is_max_shift x1 dx fst (shift_point dx dy) _ (fun p => eq_refl) Hx1) Hx1') as Ex1.
  pose proof (is_min_unique _ _ _
    (is_min_shift y0 dy snd (shift_point dx dy) _ (fun p => eq_refl) Hy0) Hy0') as Ey0.
  pose proof (is_max_unique _ _ _
    (is_max_shift y1 dy snd (shift_point dx dy) _ (fun p => eq_refl) Hy1) Hy1') as Ey1.
  destruct (span_facts _ _ _ Hs) as [Hsa [Hsb Hsc]].
  destruct (span_facts _ _ _ Hs') as [Hsa' [Hsb' Hsc']].
  assert (Ess : s == s') by (destruct Hsc, Hsc'; lra).
  subst b b'.
  destruct (layout_of_bounds _ _ _ _ _ _ _ _ _ Eb Es) as [-> ->].
  destruct (layout_of_bounds _ _ _ _ _ _ _ _ _ Eb' Es') as [-> ->].
  rewrite Eb, Eb'. unfold same_range, shift_range, xeq. js_arith.
  repeat split; lra.
Qed.

Lemma X10_witness :
  example_series <> [] /\
  same_range (xRange (computeBounds (inject (shift 10 (-5) example_series))))
             (shift_range 10 (xRange (computeBounds (inject example_series)))) /\
  range_eq (xRange (computeBounds (inject (shift 10 (-5) example_series))))
           (8.6, 11.4).
Proof.
  assert (Hne : example_series <> []) by discriminate.
  split; [exact Hne|].
  split.
  - exact (proj1 (proj2 (X10_windows_follow_a_translation 10 (-5) example_series Hne))).
  - vm_compute. auto.
Defined.

(** X11: more poses never shrink the padded window: the padded ranges
    of a motion series lie within those of any series that extends it,
    and its padding is no larger. *)
Theorem X11_padded_window_grows_with_the_series (ms more : list (Pose.t Q)) :
  ms <> [] ->
  let b := computeBounds (inject ms) in
  let b' := computeBounds (inject (ms ++ more)) in
  xle (padding b) (padding b') /\
  range_within (xRange b) (xRange b') /\
  range_within (yRange b) (yRange b').
Proof.
  intros Hne b b'.
  assert (Hne' : ms ++ more <> []) by (destruct ms; [congruence|discriminate]).
  destruct (bounds_inject ms Hne)
    as [x0 [x1 [y0 [y1 [s [Hx0 [Hx1 [Hy0 [Hy1 [Hs [Es Eb]]]]]]]]]]].
  destruct (bounds_inject _ Hne')
    as [x0' [x1' [y0' [y1' [s' [Hx0' [Hx1' [Hy0' [Hy1' [Hs' [Es' Eb']]]]]]]]]]].
  assert (Sub : forall f (q : Q), In q (map f (positions ms)) ->
                  In q (map f (positions (ms ++ more)))).
  { intros f q Hq. apply in_map_iff in Hq. destruct Hq as [p [<- Hp]].
    apply in_map. unfold positions in *. rewrite flat_map_app.
    apply in_or_app. now left. }
  pose proof (proj2 Hx0' _ (Sub fst _ (proj1 Hx0))).
  pose proof (proj2 Hx1' _ (Sub fst _ (proj1 Hx1))).
  pose proof (proj2 Hy0' _ (Sub snd _ (proj1 Hy0))).
  pose proof (proj2 Hy1' _ (Sub snd _ (proj1 Hy1))).
  destruct (span_facts _ _ _ Hs) as [Hsa [Hsb Hsc]].
  destruct (span_facts _ _ _ Hs') as [Hsa' [Hsb' Hsc']].
  assert (Hss : s <= s') by (destruct Hsc; lra).
  subst b b'. rewrite Eb, Eb'. unfold range_within, xle. js_arith.
  repeat split; lra.
Qed.

Lemma X11_witness :
  [Pose.mk (0, 0) (1, 0) (1, 1) (0, 1)] <> [] /\
  range_within
    (xRange (computeBounds (inject [Pose.mk (0, 0) (1, 0) (1, 1) (0, 1)])))
    (xRange (computeBounds (inject example_series))).
Proof.
  assert (Hne : [Pose.mk (0, 0) (1, 0) (1, 1) (0, 1)] <> []) by discriminate.
  split; [exact Hne|].
  exact (proj1 (proj2 (X11_padded_window_grows_with_the_series
    [Pose.mk (0, 0) (1, 0) (1, 1) (0, 1)]
    [Pose.mk (0, 0) (0, 1) (-1, 1) (-1, 0)] Hne))).
Defined.
